(** * DTDL tree diagram generator: graph builder and recursive renderer

    A shallow embedding of [src/dtdl_tree_generator.py] (classes [TreeNode]
    and [TreeGenerator]) together with the parts of
    [src/dtdl_flow_generator.py] it reads ([FlowModelGenerator]'s three
    dictionaries and [DTDLModel.display_name]).

    Modelling choices.
    - Python strings are [string]s of 8-bit characters; [lower] folds the
      ASCII letters only.
    - [TreeNode] objects live in an object store ([heap], a list indexed by
      location); [children], [parent], [nodes] and [roots] hold locations, so
      that two references to one object are visibly the same object.
    - [self.nodes] and the property / telemetry dictionaries are iterated in
      insertion order by the source, so they are association lists; the
      dictionaries that are only looked up are [gmap]s.
    - The iteration order of the Python set [all_ids] is not determined by
      the program; it is the oracle [set_iter], constrained only to enumerate
      the set without repetition.
    - Binary floating point is not interpreted: the class [PyFloat] supplies
      the type of floats and the conversions the renderer applies to them.
    - Exceptions are explicit ([result]); the recursion of
      [_render_node_html] is driven by a depth budget, and the renderer runs
      in a small monad that also counts its activations. *)

From stdpp Require Import gmap strings list pretty relations.
From Stdlib Require Import Ascii.

Set Warnings "-clear-no-such-hyp".

Local Open Scope string_scope.
Local Open Scope list_scope.
Local Open Scope nat_scope.

(** ** Python strings *)

Module PyStr.

Definition dq : string := String (ascii_of_nat 34) EmptyString.
Definition nl : string := String (ascii_of_nat 10) EmptyString.

(** [str.lower], on ASCII. *)
Definition lower_ascii (c : ascii) : ascii :=
  let n := nat_of_ascii c in
  if (65 <=? n)%nat && (n <=? 90)%nat then ascii_of_nat (n + 32) else c.

Fixpoint lower (s : string) : string :=
  match s with
  | EmptyString => EmptyString
  | String c r => String (lower_ascii c) (lower r)
  end.

(** [sub in s]. *)
Fixpoint contains (sub s : string) : bool :=
  String.prefix sub s ||
  match s with
  | EmptyString => false
  | String _ r => contains sub r
  end.

(** [sep.join(items)]. *)
Fixpoint join (sep : string) (items : list string) : string :=
  match items with
  | [] => ""
  | [x] => x
  | x :: r => x +:+ sep +:+ join sep r
  end.

End PyStr.
Import PyStr.

(** ** Exceptions and results *)

Inductive exn :=
| KeyError (k : string)
| IndexError
| ValueError
| TypeError
| OverflowError
| Dangling. (* a location outside the store; no Python program can build one *)

Inductive result (A : Type) :=
| Ok (a : A)
| Raise (e : exn).
Arguments Ok {A} a.
Arguments Raise {A} e.

#[global] Instance result_ret : MRet result := λ A a, Ok a.
#[global] Instance result_bind : MBind result := λ A B k r,
  match r with
  | Ok a => k a
  | Raise e => Raise e
  end.

(** ** Insertion-ordered dictionaries *)

Definition dict (V : Type) := list (string * V).

Fixpoint dict_get {V} (d : dict V) (k : string) : option V :=
  match d with
  | [] => None
  | (k', v) :: r => if decide (k' = k) then Some v else dict_get r k
  end.

(** [d[k] = v]: an existing key keeps its position, a new key goes last. *)
Fixpoint dict_set {V} (d : dict V) (k : string) (v : V) : dict V :=
  match d with
  | [] => [(k, v)]
  | (k', v') :: r =>
      if decide (k' = k) then (k', v) :: r else (k', v') :: dict_set r k v
  end.

(** Locations of the object store. *)
Abbreviation loc := nat (only parsing).

(** ** Floats *)

Class PyFloat := {
  pyfloat : Type;
  float_str : pyfloat → string;         (* str(x) *)
  float_fixed1 : pyfloat → string;      (* format(x, ".1f") *)
  float_truth : pyfloat → bool;         (* bool(x) *)
  float_of_int : Z → option pyfloat     (* float(n); None: OverflowError *)
}.

Section Generator.

Context `{PyFloat}.

(** ** Values stored in twins and telemetry snapshots *)

Inductive pyval :=
| VNone
| VBool (b : bool)
| VInt (n : Z)
| VFloat (x : pyfloat)
| VStr (s : string).

(** [str(v)], as the f-string [f"{key}: {value}"] applies it. *)
Definition py_str (v : pyval) : string :=
  match v with
  | VNone => "None"
  | VBool true => "True"
  | VBool false => "False"
  | VInt n => pretty n
  | VFloat x => float_str x
  | VStr s => s
  end.

(** [bool(v)]. *)
Definition truthy (v : pyval) : bool :=
  match v with
  | VNone => false
  | VBool b => b
  | VInt n => negb (n =? 0)%Z
  | VFloat x => float_truth x
  | VStr s => negb (String.eqb s "")
  end.

(** [v == s] for a string literal [s]. *)
Definition eq_str (v : pyval) (s : string) : bool :=
  match v with
  | VStr s' => String.eqb s' s
  | _ => false
  end.

Definition format_int_1f (n : Z) : result string :=
  match float_of_int n with
  | Some x => Ok (float_fixed1 x)
  | None => Raise OverflowError
  end.

(** [f"{value:.1f}"]: integers (and booleans, which are integers) are
    converted to float first; [str] rejects the format code with
    [ValueError], [None] rejects any format string with [TypeError]. *)
Definition format_1f (v : pyval) : result string :=
  match v with
  | VNone => Raise TypeError
  | VBool b => format_int_1f (if b then 1 else 0)%Z
  | VInt n => format_int_1f n
  | VFloat x => Ok (float_fixed1 x)
  | VStr _ => Raise ValueError
  end.

Definition numeric (v : pyval) : bool :=
  match v with
  | VBool _ | VInt _ | VFloat _ => true
  | VNone | VStr _ => false
  end.

(** ** The flow model the generator reads *)

(** A twin dictionary, reduced to the two entries the tree generator reads:
    [twin["$metadata"]["$model"]] and [twin["properties"]], each possibly
    missing. The empty dictionary [{}] has neither. *)
Record payload := {
  p_model : option string;
  p_properties : option (dict pyval)
}.

Definition empty_payload : payload :=
  {| p_model := None; p_properties := None |}.

Record DTDLModel := { display_name : string }.

(** One telemetry record; [snap_data] is its ["data"] entry. *)
Record snapshot := { snap_data : option (dict pyval) }.

Record FlowModelGenerator := {
  models : gmap string DTDLModel;             (* flow_model.parser.models *)
  twin_instances : gmap string payload;
  telemetry_data : gmap string (list snapshot)
}.

(** ** TreeNode *)

Record TreeNode := {
  id : string;
  data : payload;
  children : list loc;
  parent : option loc
}.

(** [TreeNode.__init__]; [data or {}] leaves a dictionary as it is. *)
Definition TreeNode_init (i : string) (d : payload) : TreeNode :=
  {| id := i; data := d; children := []; parent := None |}.

Definition set_parent (p : loc) (n : TreeNode) : TreeNode :=
  {| id := id n; data := data n; children := children n; parent := Some p |}.

Definition append_child (c : loc) (n : TreeNode) : TreeNode :=
  {| id := id n; data := data n; children := children n ++ [c];
     parent := parent n |}.

(** [self.add_child(child)]: first [child.parent = self], then
    [self.children.append(child)]. *)
Definition add_child (self child : loc) (h : list TreeNode) : list TreeNode :=
  alter (append_child child) self (alter (set_parent self) child h).

(** ** TreeGenerator *)

Record TreeGenerator := {
  heap : list TreeNode;       (* the TreeNode objects, by location *)
  nodes : dict loc;           (* self.nodes *)
  roots : list loc            (* self.roots *)
}.

(** [TreeGenerator.__init__]. *)
Definition TreeGenerator_init : TreeGenerator :=
  {| heap := []; nodes := []; roots := [] |}.

(** A connection is a dictionary; [conn[k]] raises [KeyError] on a missing
    key. *)
Definition conn := gmap string string.

Definition conn_get (c : conn) (k : string) : result string :=
  match c !! k with
  | Some v => Ok v
  | None => Raise (KeyError k)
  end.

Definition mk_conn (e : string * string) : conn :=
  <["target" := e.2]> (<["source" := e.1]> ∅).

Variable set_iter : gset string → list string.

Section Build.

Variable flow_model : FlowModelGenerator.

(** First loop of [build_from_connections]. *)
Fixpoint collect_ids (connections : list conn) (all_ids : gset string)
  : result (gset string) :=
  match connections with
  | [] => Ok all_ids
  | c :: rest =>
      s ← conn_get c "source";
      t ← conn_get c "target";
      collect_ids rest (all_ids ∪ {[s]} ∪ {[t]})
  end.

(** Body of the second loop: allocate the node and store its reference. *)
Definition create_node (g : TreeGenerator) (node_id : string) : TreeGenerator :=
  let twin_data := default empty_payload (twin_instances flow_model !! node_id) in
  {| heap := heap g ++ [TreeNode_init node_id twin_data];
     nodes := dict_set (nodes g) node_id (length (heap g));
     roots := roots g |}.

(** Third loop: the parent/child links and the set of targets. *)
Fixpoint link (connections : list conn) (g : TreeGenerator)
    (children_ids : gset string) : result (TreeGenerator * gset string) :=
  match connections with
  | [] => Ok (g, children_ids)
  | c :: rest =>
      source_id ← conn_get c "source";
      target_id ← conn_get c "target";
      match dict_get (nodes g) source_id, dict_get (nodes g) target_id with
      | Some s, Some t =>
          link rest
            {| heap := add_child s t (heap g); nodes := nodes g;
               roots := roots g |}
            (children_ids ∪ {[target_id]})
      | _, _ => link rest g children_ids
      end
  end.

(** The list comprehension that computes [self.roots]. *)
Definition find_roots (d : dict loc) (children_ids : gset string) : list loc :=
  (filter (λ kv, kv.1 ∉ children_ids) d).*2.

Definition build_from_connections (g : TreeGenerator)
    (connections : list conn) : result TreeGenerator :=
  all_ids ← collect_ids connections ∅;
  let g1 := foldl create_node g (set_iter all_ids) in
  r ← link connections g1 ∅;
  Ok {| heap := heap r.1; nodes := nodes r.1;
        roots := find_roots (nodes r.1) r.2 |}.

End Build.

(** *** Closed form of a build on a fresh generator

    These definitions describe, without loops, what the three loops of
    [build_from_connections] leave behind when they start from
    [TreeGenerator_init] and read a list of [(source, target)] pairs; the
    lemma [build_edges] proves that they do. *)

Section BuiltForm.

Variable fm : FlowModelGenerator.
Implicit Types (E : list (string * string)) (ks : list string).

(** The identifiers of an edge list, and their enumeration. *)
Definition ids_of E : gset string := list_to_set (E.*1 ++ E.*2).
Definition order_of E : list string := set_iter (ids_of E).

(** Location of the node of an identifier. *)
Definition idx ks (k : string) : loc :=
  default 0 (dict_get (imap (λ i x, (x, i)) ks) k).

(** The node of identifier [k] once the edges [E] are linked. *)
Definition linked_node ks E (k : string) : TreeNode :=
  {| id := k;
     data := default empty_payload (twin_instances fm !! k);
     children := idx ks <$> (filter (λ e, e.1 = k) E).*2;
     parent := idx ks <$> last (filter (λ e, e.2 = k) E).*1 |}.

(** One turn of the linking loop, on a pair instead of a dictionary. *)
Definition link_edge (a : TreeGenerator * gset string) (e : string * string)
  : TreeGenerator * gset string :=
  match dict_get (nodes a.1) e.1, dict_get (nodes a.1) e.2 with
  | Some s, Some t =>
      ({| heap := add_child s t (heap a.1); nodes := nodes a.1;
          roots := roots a.1 |}, a.2 ∪ {[e.2]})
  | _, _ => a
  end.

(** The generator after the allocation loop. *)
Definition allocated ks : TreeGenerator :=
  {| heap := linked_node ks [] <$> ks;
     nodes := imap (λ i x, (x, i)) ks;
     roots := [] |}.

(** The generator after the linking loop. *)
Definition linked ks E : TreeGenerator :=
  {| heap := linked_node ks E <$> ks;
     nodes := imap (λ i x, (x, i)) ks;
     roots := [] |}.

(** The generator after the whole build. *)
Definition built E : TreeGenerator :=
  {| heap := linked_node (order_of E) E <$> order_of E;
     nodes := imap (λ i x, (x, i)) (order_of E);
     roots := idx (order_of E) <$> filter (λ k, k ∉ E.*2) (order_of E) |}.

End BuiltForm.

(** ** The renderer *)

(** [_get_unit]. *)
Definition _get_unit (key : string) : string :=
  let key_lower := lower key in
  if contains "temp" key_lower then "°C"
  else if contains "current" key_lower then "A"
  else if contains "pressure" key_lower then "bar"
  else if contains "flow" key_lower then "L/s"
  else if contains "level" key_lower then "%"
  else if contains "vibration" key_lower then "Hz"
  else "".

Section Render.

Variable flow_model : FlowModelGenerator.

(** [node.data.get("$metadata", {}).get("$model", "")] *)
Definition model_id_of (node : TreeNode) : string :=
  default "" (p_model (data node)).

(** [model.display_name if model else "Unknown"] *)
Definition model_name_of (node : TreeNode) : string :=
  match models flow_model !! model_id_of node with
  | Some model => display_name model
  | None => "Unknown"
  end.

(** The latest snapshot's ["data"]; [[-1]] of an empty list is an
    [IndexError]. *)
Definition telemetry_of (node : TreeNode) : result (dict pyval) :=
  match telemetry_data flow_model !! id node with
  | None => Ok []
  | Some snaps =>
      match last snaps with
      | Some s => Ok (default [] (snap_data s))
      | None => Raise IndexError
      end
  end.

(** [node.data.get("properties", {})] *)
Definition properties_of (node : TreeNode) : dict pyval :=
  default [] (p_properties (data node)).

(** [properties.get("status", "")] *)
Definition status_of (node : TreeNode) : pyval :=
  default (VStr "") (dict_get (properties_of node) "status").

(** The loop over [properties.items()]. *)
Definition property_lines (properties : dict pyval) : list string :=
  (λ kv, kv.1 +:+ ": " +:+ py_str kv.2)
    <$> filter (λ kv, kv.1 ≠ "status") properties.

(** One turn of the loop over the telemetry entries. *)
Definition telemetry_line (kv : string * pyval) : result string :=
  let unit := _get_unit kv.1 in
  s ← format_1f kv.2;
  Ok (kv.1 +:+ ": " +:+ s +:+ unit).

(** The loop over [list(telemetry.items())[:3]]. *)
Definition telemetry_lines (telemetry : dict pyval) : result (list string) :=
  mapM telemetry_line (take 3 telemetry).

(** [tooltip_items] after both loops. *)
Definition tooltip_items (node : TreeNode) : result (list string) :=
  telemetry ← telemetry_of node;
  tel_display ← telemetry_lines telemetry;
  Ok (property_lines (properties_of node) ++ tel_display).

(** ["\\A".join(tooltip_items) if tooltip_items else model_name] *)
Definition tooltip_of (model_name : string) (items : list string) : string :=
  match items with
  | [] => model_name
  | _ => join "\A" items
  end.

(** The node class, lines 119-128. *)
Definition node_class_of (node_id : string) (status : pyval) : string :=
  let node_class := "node" in
  if contains "pump" (lower node_id) then
    let node_class := node_class +:+ " pump-node" in
    if eq_str status "running" then node_class +:+ " running"
    else if eq_str status "stopped" then node_class +:+ " stopped"
    else node_class
  else if contains "tank" (lower node_id) then node_class +:+ " tank-node"
  else node_class.

Definition status_icon (status : pyval) : string :=
  if eq_str status "running" then "▶"
  else if eq_str status "stopped" then "⏸"
  else "⚠".

(** The markup of one node up to and including the closing [</a>]. *)
Definition anchor_html (node_id node_class tooltip model_name : string)
    (status : pyval) : string :=
  let html := "<li>" +:+ nl in
  let html := html +:+
    ("  <a href=" +:+ dq +:+ "#" +:+ dq +:+ " class=" +:+ dq +:+ node_class
     +:+ dq +:+ " data-id=" +:+ dq +:+ node_id +:+ dq +:+ " data-tooltip="
     +:+ dq +:+ tooltip +:+ dq +:+ " onclick=" +:+ dq +:+ "showDetails('"
     +:+ node_id +:+ "'); return false;" +:+ dq +:+ ">" +:+ nl) in
  let html := html +:+
    ("    <span class=" +:+ dq +:+ "node-title" +:+ dq +:+ ">" +:+ node_id
     +:+ "</span>" +:+ nl) in
  let html := html +:+
    ("    <span class=" +:+ dq +:+ "node-type" +:+ dq +:+ ">" +:+ model_name
     +:+ "</span>" +:+ nl) in
  let html :=
    if truthy status then
      html +:+
      ("    <span class=" +:+ dq +:+ "status-indicator" +:+ dq +:+ ">"
       +:+ status_icon status +:+ " " +:+ py_str status +:+ "</span>" +:+ nl)
    else html in
  html +:+ ("  </a>" +:+ nl).

(** Lines 88-141 of [_render_node_html]: everything before the children. *)
Definition render_open (node : TreeNode) : result string :=
  let model_name := model_name_of node in
  items ← tooltip_items node;
  let tooltip := tooltip_of model_name items in
  let status := status_of node in
  let node_class := node_class_of (id node) status in
  Ok (anchor_html (id node) node_class tooltip model_name status).

(** *** The recursive walk

    [M] threads the number of activations of [_render_node_html] and stops
    with [None] when the walk goes deeper than its depth budget. *)

Definition M (A : Type) : Type := nat → option (result A) * nat.

Definition ret {A} (a : A) : M A := λ calls, (Some (Ok a), calls).

Definition bind {A B} (m : M A) (k : A → M B) : M B := λ calls,
  match m calls with
  | (Some (Ok a), calls') => k a calls'
  | (Some (Raise e), calls') => (Some (Raise e), calls')
  | (None, calls') => (None, calls')
  end.

Definition lift {A} (r : result A) : M A := λ calls, (Some r, calls).
Definition tick : M unit := λ calls, (Some (Ok ()), S calls).
Definition too_deep {A} : M A := λ calls, (None, calls).

Definition deref (h : list TreeNode) (l : loc) : result TreeNode :=
  match h !! l with
  | Some n => Ok n
  | None => Raise Dangling
  end.

(** [for child in cs: html += render(child)] *)
Fixpoint render_each (render : loc → M string) (html : string)
    (cs : list loc) : M string :=
  match cs with
  | [] => ret html
  | child :: rest =>
      bind (render child) (λ s, render_each render (html +:+ s) rest)
  end.

Fixpoint _render_node_html (fuel : nat) (h : list TreeNode) (node : loc)
  : M string :=
  match fuel with
  | 0 => too_deep
  | S fuel' =>
      bind tick (λ _,
      bind (lift (deref h node)) (λ n,
      bind (lift (render_open n)) (λ html,
      bind
        (match children n with
         | [] => ret html
         | cs =>
             bind (render_each (_render_node_html fuel' h)
                     (html +:+ ("  <ul>" +:+ nl)) cs)
               (λ html, ret (html +:+ ("  </ul>" +:+ nl)))
         end) (λ html,
      ret (html +:+ ("</li>" +:+ nl))))))
  end.

(** The loop over [self.roots] at the head of [generate_tree_html]. *)
Definition render_roots (fuel : nat) (g : TreeGenerator) : M string :=
  render_each (_render_node_html fuel (heap g)) "" (roots g).

(** The walk from [l] returns a document within the depth budget. *)
Definition completes (h : list TreeNode) (fuel : nat) (l : loc) : Prop :=
  ∃ calls out calls',
    _render_node_html fuel h l calls = (Some (Ok out), calls').

End Render.

(** ** Notions used to state the properties *)

(** [l] is the node object of identifier [k]. *)
Definition node_of (g : TreeGenerator) (l : loc) (k : string) : Prop :=
  dict_get (nodes g) k = Some l ∧ id <$> heap g !! l = Some k.

(** [c] is one of the children of the node at [p]. *)
Definition child (h : list TreeNode) (p c : loc) : Prop :=
  ∃ n, h !! p = Some n ∧ c ∈ children n.

(** [l] can be reached from one of [rs] along child links. *)
Definition reachable (h : list TreeNode) (rs : list loc) (l : loc)
  : Prop :=
  ∃ r, r ∈ rs ∧ rtc (child h) r l.

(** No node reachable from [rs] lies on a cycle of child links. *)
Definition acyclic_from (h : list TreeNode) (rs : list loc) : Prop :=
  ∀ l, reachable h rs l → ¬ tc (child h) l l.

(** Every reference stored in a node points into the store. *)
Definition closed (h : list TreeNode) : Prop :=
  ∀ l n, h !! l = Some n → Forall (λ c, c < length h) (children n).

(** Number of node occurrences below a sequence of nodes: each node counts
    once for every path that leads to it. *)
Inductive occurrences (h : list TreeNode) : list loc → nat → Prop :=
| occ_nil : occurrences h [] 0
| occ_cons l ls n k m :
    h !! l = Some n →
    occurrences h (children n) k →
    occurrences h ls m →
    occurrences h (l :: ls) (S k + m).

(** The paths of child links that start at [l] have fewer than [d] links. *)
Fixpoint shallow (h : list TreeNode) (d : nat) (l : loc) : Prop :=
  match d with
  | 0 => False
  | S d' => ∀ n, h !! l = Some n → Forall (shallow h d') (children n)
  end.

(** [shallow], as a test. *)
Fixpoint shallowb (h : list TreeNode) (d : nat) (l : loc) : bool :=
  match d with
  | 0 => false
  | S d' =>
      match h !! l with
      | Some n => forallb (shallowb h d') (children n)
      | None => true
      end
  end.

End Generator.

Arguments pyval {_}.

(** The keyword table of [_get_unit], as data. *)
Definition unit_table : list (string * string) :=
  [("temp", "°C"); ("current", "A"); ("pressure", "bar"); ("flow", "L/s");
   ("level", "%"); ("vibration", "Hz")].

(** First entry of a table whose keyword occurs in the name, compared
    without regard to case; the empty string when there is none. *)
Fixpoint first_match (table : list (string * string)) (name : string)
  : string :=
  match table with
  | [] => ""
  | (keyword, unit) :: rest =>
      if contains (lower keyword) (lower name) then unit
      else first_match rest name
  end.

(** The lines a tooltip shows: its items, or the model name alone. *)
Definition tooltip_lines (model_name : string) (items : list string)
  : list string :=
  match items with
  | [] => [model_name]
  | _ => items
  end.

(** Markup of a node without children, given its opening part. *)
Definition leaf_html (open : string) : string := open +:+ ("</li>" +:+ nl).

(** Markup of a node with children, given its opening part and the markup
    of its children. *)
Definition branch_html (open kids : string) : string :=
  (((open +:+ ("  <ul>" +:+ nl)) +:+ kids) +:+ ("  </ul>" +:+ nl))
  +:+ ("</li>" +:+ nl).

(** The edge list with one target under two sources. *)
Definition fan_in (a b c : string) : list (string * string) :=
  [(a, c); (b, c)].

(** The edge list of the example in the specification. *)
Definition abcd : list (string * string) :=
  [("A", "B"); ("A", "C"); ("C", "D")].

(** ** A concrete flow model for closed examples *)

(** Decimal numbers with one fractional digit stand in for floats in the
    examples: the integer [k] reads k/10, so that [200] prints as 20.0. *)
Definition tenths_str (k : Z) : string :=
  (if (k <? 0)%Z then "-" else "")
  +:+ pretty (Z.abs k / 10)%Z +:+ "." +:+ pretty (Z.abs k `mod` 10)%Z.

#[export] Instance Tenths : PyFloat := {|
  pyfloat := Z;
  float_str := tenths_str;
  float_fixed1 := tenths_str;
  float_truth k := negb (k =? 0)%Z;
  float_of_int n := Some (10 * n)%Z
|}.

Definition pump_model : string := "dtmi:com:industrial:Pump;1".
Definition tank_model : string := "dtmi:com:industrial:Tank;1".

Definition pump_001 : payload :=
  {| p_model := Some pump_model;
     p_properties :=
       Some [("ratedPower", VFloat 200%Z); ("status", VStr "running");
             ("pumpType", VStr "Centrifugal")] |}.

Definition tank_001 : payload :=
  {| p_model := Some tank_model;
     p_properties :=
       Some [("capacity", VFloat 50000%Z); ("material", VStr "Stainless Steel")] |}.

(** Two models, two twins; the pump has sound telemetry, the tank a
    snapshot whose first value is text. *)
Definition demo_flow : FlowModelGenerator :=
  {| models :=
       {[ pump_model := {| display_name := "Pump" |};
          tank_model := {| display_name := "Tank" |} ]};
     twin_instances := {[ "pump-001" := pump_001; "tank-001" := tank_001 ]};
     telemetry_data :=
       {[ "pump-001" :=
            [ {| snap_data := Some [("flowRate", VFloat 100%Z)] |};
              {| snap_data :=
                   Some [("flowRate", VFloat 253%Z);
                         ("pressure", VFloat 31%Z)] |} ];
          "tank-001" :=
            [ {| snap_data :=
                   Some [("level", VStr "high");
                         ("temperature", VFloat 215%Z)] |} ] ]} |}.

Definition pump_node : TreeNode := TreeNode_init "pump-001" pump_001.
Definition tank_node : TreeNode := TreeNode_init "tank-001" tank_001.

(** A node with no twin, no model and no telemetry. *)
Definition bare_node : TreeNode := TreeNode_init "valve-7" empty_payload.

(** A node whose identifier contains both keywords. *)
Definition pump_tank_node : TreeNode :=
  TreeNode_init "pump-tank-01" empty_payload.

(** What [render_open] returns for the pump. *)
Definition pump_open : string :=
  anchor_html "pump-001" "node pump-node running"
    (join "\A" ["ratedPower: 20.0"; "pumpType: Centrifugal";
                "flowRate: 25.3L/s"; "pressure: 3.1bar"])
    "Pump" (VStr "running").

(** Edge lists of the examples: a repeated edge, an empty source, a loop
    below a root. *)
Definition twice : list (string * string) :=
  [("pump-001", "tank-001"); ("pump-001", "tank-001")].
Definition unnamed_source : list (string * string) := [("", "tank-001")].
Definition looping : list (string * string) := [("R", "A"); ("A", "A")].

(** The characters of a string are all ASCII; on such strings [lower] is
    [str.lower]. *)
Fixpoint is_ascii (s : string) : bool :=
  match s with
  | EmptyString => true
  | String c r => (nat_of_ascii c <? 128) && is_ascii r
  end.


(** The forests that a fresh generator builds from the example edge
    lists, with the set enumerated by [elements]. *)
Definition forest_of (fm : FlowModelGenerator) (E : list (string * string))
  : TreeGenerator :=
  match build_from_connections elements fm TreeGenerator_init
          (mk_conn <$> E) with
  | Ok g => g
  | Raise _ => TreeGenerator_init
  end.

Definition abcd_forest : TreeGenerator :=
  Eval vm_compute in forest_of demo_flow abcd.
Definition looping_forest : TreeGenerator :=
  Eval vm_compute in forest_of demo_flow looping.
Definition twice_forest : TreeGenerator :=
  Eval vm_compute in forest_of demo_flow twice.
Definition unnamed_forest : TreeGenerator :=
  Eval vm_compute in forest_of demo_flow unnamed_source.

(** ** Notions used for further properties of the builder *)

(** The connection dictionary [c] holds the pair [e] under its two keys
    (and possibly other entries). *)
Definition reads (c : conn) (e : string * string) : Prop :=
  c !! "source" = Some e.1 ∧ c !! "target" = Some e.2.

(** The key whose absence [conn[...]] meets first in a connection. *)
Definition missing_key (c : conn) : option string :=
  match c !! "source", c !! "target" with
  | None, _ => Some "source"
  | Some _, None => Some "target"
  | Some _, Some _ => None
  end.

(** Connections of the further examples: one with an entry besides the
    two keys, one without "target"; and an edge list that is one cycle. *)
Definition labelled_conn : conn :=
  <["label" := "feeds"]> (mk_conn ("pump-001", "tank-001")).
Definition no_target_conn : conn := {[ "source" := "pump-001" ]}.
Definition two_cycle : list (string * string) := [("A", "B"); ("B", "A")].

(** * Facts about dictionaries *)

Section DictFacts.

Context {V : Type}.
Implicit Types (d : dict V) (k : string) (v : V).

Lemma dict_get_app d d' k :
  dict_get (d ++ d') k =
  match dict_get d k with Some v => Some v | None => dict_get d' k end.
Proof.
  induction d as [|[k' v'] d IH]; simpl; [done|].
  case_decide; done.
Qed.

Lemma dict_set_fresh d k v :
  dict_get d k = None → dict_set d k v = d ++ [(k, v)].
Proof.
  induction d as [|[k' v'] d IH]; simpl; [done|].
  case_decide; [done|]. intros Hn. by rewrite IH.
Qed.

Lemma dict_get_elem_of d k v : dict_get d k = Some v → (k, v) ∈ d.
Proof.
  induction d as [|[k' v'] d IH]; simpl; [done|].
  case_decide.
  - intros [= ->]. subst. left.
  - intros Hg. right. auto.
Qed.

Lemma dict_get_None d k : dict_get d k = None ↔ k ∉ d.*1.
Proof.
  induction d as [|[k' v'] d IH]; simpl.
  - split; [intros _; apply not_elem_of_nil | done].
  - case_decide; subst.
    + split; [done|]. intros Hn. exfalso. apply Hn. left.
    + rewrite IH. rewrite not_elem_of_cons. naive_solver.
Qed.

(** The dictionary that numbers a duplicate-free list of keys. *)
Lemma dict_get_imap (f : nat → V) (ks : list string) i k :
  NoDup ks → ks !! i = Some k →
  dict_get (imap (λ j x, (x, f j)) ks) k = Some (f i).
Proof.
  revert f i. induction ks as [|x ks IH]; intros f i Hnd Hi; [done|].
  apply NoDup_cons in Hnd as [Hx Hnd]. simpl.
  destruct i as [|i]; simpl in Hi.
  - injection Hi as ->. by rewrite decide_True.
  - rewrite decide_False.
    + apply (IH (f ∘ S) i Hnd Hi).
    + intros ->. apply Hx. by eapply list_elem_of_lookup_2.
Qed.

Lemma dict_get_imap_None (f : nat → V) (ks : list string) k :
  k ∉ ks → dict_get (imap (λ j x, (x, f j)) ks) k = None.
Proof.
  revert f. induction ks as [|x ks IH]; intros f Hk; [done|].
  apply not_elem_of_cons in Hk as [Hne Hk]. simpl.
  rewrite decide_False; [|done]. apply (IH (f ∘ S) Hk).
Qed.

End DictFacts.

(** * The graph builder on a fresh generator *)

Section BuildFacts.

Context `{PyFloat}.
Variable set_iter : gset string → list string.
Hypothesis set_iter_enum : ∀ X, set_iter X ≡ₚ elements X.
Variable fm : FlowModelGenerator.

Implicit Types (E : list (string * string)) (ks : list string).

Local Abbreviation order_of := (order_of set_iter).
Local Abbreviation linked_node := (linked_node fm).
Local Abbreviation allocated := (allocated fm).
Local Abbreviation linked := (linked fm).
Local Abbreviation built := (built set_iter fm).
Local Abbreviation build := (build_from_connections set_iter fm TreeGenerator_init).

Lemma conn_get_source e : conn_get (mk_conn e) "source" = Ok e.1.
Proof. done. Qed.

Lemma conn_get_target e : conn_get (mk_conn e) "target" = Ok e.2.
Proof. done. Qed.

Lemma collect_ids_edges E X :
  collect_ids (mk_conn <$> E) X = Ok (X ∪ ids_of E).
Proof.
  revert X. induction E as [|e E IH]; intros X; simpl.
  - f_equal. unfold ids_of. set_solver.
  - rewrite conn_get_source, conn_get_target. simpl. rewrite IH.
    f_equal. unfold ids_of. set_solver.
Qed.

Lemma link_edges E g C :
  link (mk_conn <$> E) g C = Ok (foldl link_edge (g, C) E).
Proof.
  revert g C. induction E as [|e E IH]; intros g C; simpl; [done|].
  rewrite conn_get_source, conn_get_target. simpl.
  unfold link_edge at 2. simpl.
  destruct (dict_get (nodes g) e.1), (dict_get (nodes g) e.2);
    by rewrite IH.
Qed.

Lemma order_NoDup E : NoDup (order_of E).
Proof.
  unfold order_of. rewrite set_iter_enum. apply NoDup_elements.
Qed.

Lemma elem_of_order E k : k ∈ order_of E ↔ k ∈ E.*1 ∨ k ∈ E.*2.
Proof.
  unfold order_of. rewrite set_iter_enum, elem_of_elements.
  unfold ids_of. rewrite elem_of_list_to_set, elem_of_app. done.
Qed.

Lemma idx_lookup ks i k : NoDup ks → ks !! i = Some k → idx ks k = i.
Proof.
  intros Hnd Hi. unfold idx.
  by rewrite (dict_get_imap (λ j, j) ks i k Hnd Hi).
Qed.

Lemma idx_elem_of ks k :
  NoDup ks → k ∈ ks →
  dict_get (imap (λ i x, (x, i)) ks) k = Some (idx ks k)
  ∧ ks !! idx ks k = Some k.
Proof.
  intros Hnd [i Hi]%list_elem_of_lookup_1.
  rewrite (idx_lookup ks i k Hnd Hi).
  split; [|done]. apply (dict_get_imap (λ j, j) ks i k Hnd Hi).
Qed.

Lemma idx_inj ks k k' :
  NoDup ks → k ∈ ks → k' ∈ ks → idx ks k = idx ks k' → k = k'.
Proof.
  intros Hnd [_ Hk]%idx_elem_of [_ Hk']%idx_elem_of Heq; [|done..].
  rewrite Heq in Hk. congruence.
Qed.

(** The allocation loop. *)
Lemma create_nodes ks g :
  NoDup ks → (∀ k, k ∈ ks → dict_get (nodes g) k = None) →
  foldl (create_node fm) g ks =
  {| heap := heap g
       ++ ((λ k, TreeNode_init k (default empty_payload (twin_instances fm !! k)))
             <$> ks);
     nodes := nodes g ++ imap (λ i x, (x, length (heap g) + i)) ks;
     roots := roots g |}.
Proof.
  revert g. induction ks as [|k ks IH]; intros g Hnd Hfresh; simpl.
  - rewrite !app_nil_r. by destruct g.
  - apply NoDup_cons in Hnd as [Hk Hnd].
    rewrite IH; [|done|].
    + unfold create_node; simpl.
      rewrite dict_set_fresh by (apply Hfresh; left).
      rewrite <- !app_assoc. simpl. f_equal.
      f_equal. rewrite Nat.add_0_r. f_equal.
      apply imap_ext. intros i x _. simpl. f_equal.
      rewrite length_app. simpl. lia.
    + intros k' Hk'. unfold create_node; simpl.
      rewrite dict_set_fresh by (apply Hfresh; left).
      rewrite dict_get_app, Hfresh by (by right). simpl.
      rewrite decide_False; [done|]. by intros ->.
Qed.

(** Linking one more edge changes exactly the two nodes it names. *)
Lemma linked_node_snoc ks E s t k :
  linked_node ks (E ++ [(s, t)]) k =
  (if decide (s = k) then append_child (idx ks t) else λ n, n)
    ((if decide (t = k) then set_parent (idx ks s) else λ n, n)
       (linked_node ks E k)).
Proof.
  unfold linked_node. rewrite !filter_app, !fmap_app, last_app.
  rewrite !filter_cons, !filter_nil. simpl.
  destruct (decide (s = k)), (decide (t = k)); simpl;
    rewrite ?app_nil_r; done.
Qed.

Lemma add_child_linked ks E s t :
  NoDup ks → s ∈ ks → t ∈ ks →
  add_child (idx ks s) (idx ks t) (linked_node ks E <$> ks)
  = linked_node ks (E ++ [(s, t)]) <$> ks.
Proof.
  intros Hnd Hs Ht. apply list_eq. intros i. unfold add_child.
  destruct (idx_elem_of ks s Hnd Hs) as [_ Hsi].
  destruct (idx_elem_of ks t Hnd Ht) as [_ Hti].
  rewrite !list_lookup_alter, !list_lookup_fmap, Hsi, Hti. simpl.
  destruct (ks !! i) as [k|] eqn:Hi; simpl.
  - rewrite linked_node_snoc.
    assert (Hsk : idx ks s = i ↔ s = k).
    { split; [intros <-; congruence | intros ->; by apply idx_lookup]. }
    assert (Htk : idx ks t = i ↔ t = k).
    { split; [intros <-; congruence | intros ->; by apply idx_lookup]. }
    assert (Hst : idx ks t = idx ks s ↔ t = s).
    { split; [by apply idx_inj | by intros ->]. }
    destruct (decide (s = k)) as [->|Hs'], (decide (t = k)) as [->|Ht'];
      repeat case_decide; simpl; try done; naive_solver.
  - repeat case_decide; simpl; try done; congruence.
Qed.

Lemma create_nodes_init ks :
  NoDup ks → foldl (create_node fm) TreeGenerator_init ks = allocated ks.
Proof.
  intros Hnd. rewrite create_nodes; done.
Qed.

Lemma link_edges_linked ks E :
  NoDup ks → (∀ e, e ∈ E → e.1 ∈ ks ∧ e.2 ∈ ks) →
  foldl link_edge (allocated ks, ∅) E = (linked ks E, list_to_set E.*2).
Proof.
  intros Hnd. induction E as [|[s t] E IH] using rev_ind; intros HE.
  - done.
  - rewrite foldl_snoc, IH.
    2: { intros e He. apply HE. apply elem_of_app. by left. }
    destruct (HE (s, t)) as [Hs Ht].
    { apply elem_of_app. right. left. }
    simpl in Hs, Ht. unfold link_edge. simpl.
    destruct (idx_elem_of ks s Hnd Hs) as [-> _].
    destruct (idx_elem_of ks t Hnd Ht) as [-> _].
    unfold linked. rewrite add_child_linked by done.
    f_equal. rewrite fmap_app, list_to_set_app_L. simpl. set_solver.
Qed.

(** What [self.roots] holds after a build. *)
Lemma find_roots_imap ks (C : gset string) :
  NoDup ks →
  find_roots (imap (λ i x, (x, i)) ks) C = idx ks <$> filter (λ k, k ∉ C) ks.
Proof.
  intros Hnd. unfold find_roots.
  assert (Hgen : ∀ l (F : nat → string → string * nat),
    (∀ i x, l !! i = Some x → F i x = (x, idx ks x)) →
    (filter (λ kv : string * nat, kv.1 ∉ C) (imap F l)).*2
    = idx ks <$> filter (λ k, k ∉ C) l).
  { induction l as [|x l IHl]; intros F HF; [done|].
    simpl. rewrite !filter_cons, (HF 0 x eq_refl). simpl.
    specialize (IHl (F ∘ S) (λ i y Hy, HF (S i) y Hy)).
    destruct (decide (x ∉ C)); simpl; [f_equal|]; exact IHl. }
  apply Hgen. intros i x Hx. f_equal. symmetry. by apply idx_lookup.
Qed.

Lemma build_edges E :
  build (mk_conn <$> E) = Ok (built E).
Proof.
  unfold build_from_connections.
  rewrite collect_ids_edges. simpl.
  rewrite (left_id_L ∅ (∪)). fold (order_of E).
  pose proof (order_NoDup E) as Hnd.
  rewrite create_nodes_init by done.
  rewrite link_edges, link_edges_linked; [|done|].
  - simpl. unfold built. f_equal. f_equal.
    rewrite find_roots_imap by done. f_equal.
    apply list_filter_iff. intros k. by rewrite elem_of_list_to_set.
  - intros e He. rewrite !elem_of_order. split.
    + left. apply list_elem_of_fmap. eauto.
    + right. apply list_elem_of_fmap. eauto.
Qed.

(** *** Reading the built generator *)

Lemma built_lookup E k :
  k ∈ order_of E →
  dict_get (nodes (built E)) k = Some (idx (order_of E) k)
  ∧ heap (built E) !! idx (order_of E) k
    = Some (linked_node (order_of E) E k).
Proof.
  intros Hk. destruct (idx_elem_of _ k (order_NoDup E) Hk) as [Hd Hl].
  split; [done|]. simpl. by rewrite list_lookup_fmap, Hl.
Qed.

Lemma built_dict_inv E k l :
  dict_get (nodes (built E)) k = Some l →
  k ∈ order_of E ∧ l = idx (order_of E) k.
Proof.
  intros Hd. destruct (decide (k ∈ order_of E)) as [Hk|Hk].
  - split; [done|]. destruct (built_lookup E k Hk) as [Hd' _]. congruence.
  - simpl in Hd. by rewrite dict_get_imap_None in Hd.
Qed.

Lemma built_heap_inv E l n :
  heap (built E) !! l = Some n →
  ∃ k, order_of E !! l = Some k ∧ n = linked_node (order_of E) E k
       ∧ idx (order_of E) k = l.
Proof.
  simpl. rewrite list_lookup_fmap. intros Hl.
  destruct (order_of E !! l) as [k|] eqn:Hk; [|done].
  exists k. injection Hl as <-. split_and!; [done..|].
  by apply idx_lookup; [apply order_NoDup|].
Qed.

Lemma order_of_perm E ks :
  NoDup ks → ids_of E = list_to_set ks → order_of E ≡ₚ ks.
Proof.
  intros Hnd Heq. unfold order_of.
  rewrite set_iter_enum, Heq. by apply elements_list_to_set.
Qed.

(** *** Roots *)

Lemma built_roots E l n :
  heap (built E) !! l = Some n → (l ∈ roots (built E) ↔ id n ∉ E.*2).
Proof.
  intros (k & Hk & -> & Hidx)%built_heap_inv. simpl.
  rewrite list_elem_of_fmap. split.
  - intros (k' & -> & [Hk' Hin]%list_elem_of_filter).
    destruct (idx_elem_of _ k' (order_NoDup E) Hin) as [_ Hl].
    rewrite Hl in Hk. by injection Hk as <-.
  - intros Hn. exists k. split; [done|].
    apply list_elem_of_filter. split; [done|].
    by eapply list_elem_of_lookup_2.
Qed.

(** C1. After a build from any edge list, a node is among the roots exactly
    when its identifier is the target of no edge. For the edges
    [(A,B),(A,C),(C,D)] the roots are the single node of A, the children of
    A are the nodes of B and C in this order, and the only child of C is the
    node of D. *)
Theorem root_iff_never_target :
  (∀ E, ∃ g, build (mk_conn <$> E) = Ok g
     ∧ ∀ l n, heap g !! l = Some n → (l ∈ roots g ↔ id n ∉ E.*2))
  ∧ (∃ g a b c d na nc,
       build (mk_conn <$> abcd) = Ok g
       ∧ dict_get (nodes g) "A" = Some a ∧ dict_get (nodes g) "B" = Some b
       ∧ dict_get (nodes g) "C" = Some c ∧ dict_get (nodes g) "D" = Some d
       ∧ roots g = [a]
       ∧ heap g !! a = Some na ∧ children na = [b; c]
       ∧ heap g !! c = Some nc ∧ children nc = [d]).
Proof.
  split.
  - intros E. exists (built E). split; [apply build_edges|].
    apply built_roots.
  - set (ks := order_of abcd).
    assert (Hp : ks ≡ₚ ["A"; "B"; "C"; "D"]).
    { apply order_of_perm.
      - compute_done.
      - unfold ids_of. simpl. set_solver. }
    assert (Hin : ∀ k, k ∈ ["A"; "B"; "C"; "D"] → k ∈ ks).
    { intros k Hk. by rewrite Hp. }
    exists (built abcd), (idx ks "A"), (idx ks "B"), (idx ks "C"),
      (idx ks "D"), (linked_node ks abcd "A"), (linked_node ks abcd "C").
    split; [apply build_edges|].
    split_and!; try (apply built_lookup, Hin; set_solver); try done.
    simpl. fold ks.
    assert (Hf : filter (λ k, k ∉ abcd.*2) ks ≡ₚ ["A"]).
    { rewrite Hp. done. }
    apply Permutation_singleton_r in Hf. simpl in Hf. by rewrite Hf.
Qed.

(** *** Children *)

Lemma edge_in_order E e : e ∈ E → e.1 ∈ order_of E ∧ e.2 ∈ order_of E.
Proof.
  intros He. rewrite !elem_of_order. split.
  - left. apply list_elem_of_fmap. eauto.
  - right. apply list_elem_of_fmap. eauto.
Qed.

Lemma built_node E k :
  k ∈ E.*1 ∨ k ∈ E.*2 →
  ∃ l n, dict_get (nodes (built E)) k = Some l
         ∧ heap (built E) !! l = Some n
         ∧ n = linked_node (order_of E) E k.
Proof.
  intros Hk%elem_of_order. destruct (built_lookup E k Hk) as [Hd Hh].
  eauto.
Qed.

Lemma built_node_of E k :
  k ∈ order_of E → node_of (built E) (idx (order_of E) k) k.
Proof.
  intros Hk. destruct (built_lookup E k Hk) as [Hd Hh].
  split; [done|]. by rewrite Hh.
Qed.

Lemma count_children ks E s t :
  NoDup ks → t ∈ ks → (∀ e, e ∈ E → e.2 ∈ ks) →
  length (filter (λ c, c = idx ks t)
            (idx ks <$> (filter (λ e, e.1 = s) E).*2))
  = length (filter (λ e, e = (s, t)) E).
Proof.
  intros Hnd Ht. induction E as [|[s' t'] E IH]; intros HE; [done|].
  assert (Ht' : t' ∈ ks) by (apply (HE (s', t')); left).
  assert (IH' := IH (λ e He, HE e (list_elem_of_further _ _ _ He))).
  rewrite !filter_cons. cbn [fst snd].
  destruct (decide (s' = s)) as [->|Hs].
  - rewrite !fmap_cons, filter_cons. cbn [fst snd]. 
    destruct (decide (idx ks t' = idx ks t)) as [Heq|Hne].
    + apply (idx_inj ks) in Heq as ->; [|done..].
      rewrite decide_True by done. cbn [length]. by rewrite IH'.
    + rewrite decide_False; [done|]. by intros [= ->].
  - rewrite decide_False; [done|]. by intros [= -> _].
Qed.

(** C3. After a build from any edge list, the children of the node of an
    identifier [s] are the nodes of the targets of the edges with source
    [s], in the order of the edge list; an edge that is repeated is a child
    that is repeated, as many times. *)
Theorem children_follow_edge_order E :
  ∃ g, build (mk_conn <$> E) = Ok g
    ∧ (∀ s, s ∈ E.*1 ∨ s ∈ E.*2 →
         ∃ l n, dict_get (nodes g) s = Some l ∧ heap g !! l = Some n
                ∧ id n = s
                ∧ Forall2 (node_of g) (children n)
                    (filter (λ e, e.1 = s) E).*2)
    ∧ (∀ s t ls lt ns,
         dict_get (nodes g) s = Some ls → dict_get (nodes g) t = Some lt →
         heap g !! ls = Some ns →
         length (filter (λ c, c = lt) (children ns))
         = length (filter (λ e, e = (s, t)) E)).
Proof.
  exists (built E). split; [apply build_edges|]. split.
  - intros s Hs. destruct (built_node E s Hs) as (l & n & Hd & Hh & ->).
    exists l, (linked_node (order_of E) E s). split_and!; [done..|].
    simpl. apply Forall2_fmap_l, Forall_Forall2_diag, Forall_forall.
    intros t Ht. apply built_node_of.
    apply list_elem_of_fmap in Ht as (e & -> & [_ He]%list_elem_of_filter).
    by apply edge_in_order.
  - intros s t ls lt ns [Hs ->]%built_dict_inv [Ht ->]%built_dict_inv Hh.
    destruct (built_lookup E s Hs) as [_ Hh']. rewrite Hh' in Hh.
    injection Hh as <-. simpl. apply count_children.
    + apply order_NoDup.
    + done.
    + intros e He. by apply edge_in_order.
Qed.

(** *** Parents *)

(** C9. A node has one parent field, holding at most one reference. After a
    build it refers to the source of the last edge of the list that targets
    the node (and is empty when no edge does); every source of an edge to
    the node has the node among its children, and a source other than the
    last one is not what the parent field refers to. *)
Theorem parent_is_last_source E :
  ∃ g, build (mk_conn <$> E) = Ok g
    ∧ ∀ t lt nt,
        dict_get (nodes g) t = Some lt → heap g !! lt = Some nt →
        match last (filter (λ e, e.2 = t) E).*1 with
        | None => parent nt = None
        | Some s' =>
            (∃ l', dict_get (nodes g) s' = Some l' ∧ parent nt = Some l')
            ∧ ∀ s ls, (s, t) ∈ E → s ≠ s' →
                dict_get (nodes g) s = Some ls → parent nt ≠ Some ls
        end
        ∧ ∀ s, (s, t) ∈ E →
            ∃ ls ns, dict_get (nodes g) s = Some ls
                     ∧ heap g !! ls = Some ns ∧ lt ∈ children ns.
Proof.
  exists (built E). split; [apply build_edges|].
  intros t lt nt [Ht ->]%built_dict_inv Hh.
  destruct (built_lookup E t Ht) as [_ Hh']. rewrite Hh' in Hh.
  injection Hh as <-. simpl. split.
  - destruct (last _) as [s'|] eqn:Hlast; simpl; [|done].
    assert (Hs' : s' ∈ order_of E).
    { apply last_Some_elem_of, list_elem_of_fmap in Hlast
        as (e & -> & [_ He]%list_elem_of_filter).
      by apply edge_in_order. }
    split.
    + exists (idx (order_of E) s'). split; [|done]. by apply built_lookup.
    + intros s ls Hst Hne [Hs ->]%built_dict_inv [= Heq].
      apply Hne. symmetry. apply (idx_inj (order_of E)); auto using order_NoDup.
  - intros s Hst. destruct (edge_in_order E _ Hst) as [Hs _]. simpl in Hs.
    destruct (built_lookup E s Hs) as [Hd Hhs].
    eexists _, _. split_and!; [done..|]. simpl.
    apply list_elem_of_fmap. exists t. split; [done|].
    apply list_elem_of_fmap. exists (s, t). split; [done|].
    by apply list_elem_of_filter.
Qed.

(** *** Identifiers are not validated *)

(** C8, as the code has it. A build from any edge list raises no error,
    whatever its identifiers are: every identifier of the list, the empty
    string included, gets a node, and an edge with an empty source or target
    is linked like any other edge. *)
Theorem empty_identifier_builds_a_node E :
  ∃ g, build (mk_conn <$> E) = Ok g
    ∧ (∀ k, k ∈ E.*1 ∨ k ∈ E.*2 → ∃ l, node_of g l k)
    ∧ ∀ s t, (s, t) ∈ E → s = "" ∨ t = "" →
        ∃ ls lt ns, node_of g ls s ∧ node_of g lt t
                    ∧ heap g !! ls = Some ns ∧ lt ∈ children ns.
Proof.
  exists (built E). split; [apply build_edges|]. split.
  - intros k Hk%elem_of_order. eexists. by apply built_node_of.
  - intros s t Hst _. destruct (edge_in_order E _ Hst) as [Hs Ht].
    simpl in Hs, Ht. destruct (built_lookup E s Hs) as [_ Hhs].
    eexists _, _, _. split_and!; [by apply built_node_of..|done|].
    simpl. apply list_elem_of_fmap. exists t. split; [done|].
    apply list_elem_of_fmap. exists (s, t). split; [done|].
    by apply list_elem_of_filter.
Qed.

End BuildFacts.

(** * The renderer, one node at a time *)

Section RenderFacts.

Context `{PyFloat}.
Variable fm : FlowModelGenerator.

Lemma _get_unit_first_match key : _get_unit key = first_match unit_table key.
Proof. done. Qed.

Lemma mapM_cons {A B} (f : A → result B) x l :
  mapM f (x :: l) =
  match f x with
  | Ok y => match mapM f l with Ok k => Ok (y :: k) | Raise e => Raise e end
  | Raise e => Raise e
  end.
Proof. done. Qed.

Lemma mapM_Ok {A B} (f : A → result B) l ys :
  mapM f l = Ok ys ↔ Forall2 (λ y x, f x = Ok y) ys l.
Proof.
  revert ys. induction l as [|x l IH]; intros ys.
  - split; [intros [= <-]; constructor | by inversion 1].
  - rewrite mapM_cons. destruct (f x) as [y|e] eqn:Hx.
    + destruct (mapM f l) as [k|e] eqn:Hl.
      * split; [intros [= <-]; constructor; [done|by apply IH]|].
        inversion 1 as [|? ? ? ? Hy Hk]; subst.
        apply IH in Hk. congruence.
      * split; [done|]. inversion 1 as [|? ? ? ? Hy Hk]; subst.
        by apply IH in Hk.
    + split; [done|]. inversion 1; congruence.
Qed.

Lemma mapM_Raise {A B} (f : A → result B) l :
  Exists (λ x, ∃ e, f x = Raise e) l → ∃ e, mapM f l = Raise e.
Proof.
  induction 1 as [x l [e He]|x l _ [e IH]]; rewrite mapM_cons.
  - rewrite He. eauto.
  - destruct (f x); [|eauto]. rewrite IH. eauto.
Qed.

Lemma format_1f_numeric v s : format_1f v = Ok s → numeric v = true.
Proof. by destruct v. Qed.

Lemma format_1f_not_numeric v : numeric v = false → ∃ e, format_1f v = Raise e.
Proof. destruct v; try done; simpl; eauto. Qed.

Lemma length_property_lines props :
  length (property_lines props)
  = length (filter (λ kv : string * pyval, kv.1 ≠ "status") props).
Proof. unfold property_lines. by rewrite length_fmap. Qed.

(** [render_open] is [anchor_html] of the values it computes, if the
    telemetry lines can be formatted. *)
Lemma render_open_Ok node html :
  render_open fm node = Ok html ↔
  ∃ items, tooltip_items fm node = Ok items
    ∧ html = anchor_html (id node)
               (node_class_of (id node) (status_of node))
               (tooltip_of (model_name_of fm node) items)
               (model_name_of fm node) (status_of node).
Proof.
  unfold render_open.
  destruct (tooltip_items fm node) as [items|e]; simpl; split.
  - intros [= <-]. eauto.
  - intros (? & [= <-] & ->). done.
  - done.
  - by intros (? & ? & _).
Qed.

Lemma tooltip_items_Ok node items :
  tooltip_items fm node = Ok items ↔
  ∃ telemetry tel_display,
    telemetry_of fm node = Ok telemetry
    ∧ telemetry_lines telemetry = Ok tel_display
    ∧ items = property_lines (properties_of node) ++ tel_display.
Proof.
  unfold tooltip_items.
  destruct (telemetry_of fm node) as [telemetry|e]; simpl.
  - destruct (telemetry_lines telemetry) as [tel_display|e] eqn:Ht;
      simpl; split.
    + intros [= <-]. eauto.
    + intros (? & ? & [= <-] & Ht' & ->). congruence.
    + done.
    + intros (? & ? & [= <-] & Ht' & _). congruence.
  - split; [done|]. intros (? & ? & ? & _). done.
Qed.

Lemma tooltip_of_lines model_name items :
  tooltip_of model_name items = join "\A" (tooltip_lines model_name items).
Proof. by destruct items. Qed.

Lemma eq_str_true v s : eq_str v s = true ↔ v = VStr s.
Proof.
  destruct v; simpl; try (split; [done|intros [=]]).
  rewrite String.eqb_eq. split; [by intros ->|by intros [= ->]].
Qed.

Lemma eq_str_false v s : eq_str v s = false ↔ v ≠ VStr s.
Proof.
  rewrite <- eq_str_true. by destruct (eq_str v s).
Qed.

Lemma length_telemetry_lines telemetry tel_display :
  telemetry_lines telemetry = Ok tel_display → (length tel_display ≤ 3)%nat.
Proof.
  intros Hl%mapM_Ok%Forall2_length. rewrite Hl, length_take. lia.
Qed.

(** C2, as the code has it. The tooltip of a rendered node has one line per
    property other than "status", then one line per entry among the first
    three of the latest telemetry, in their order, each ending in the unit
    of the first keyword of the table that occurs in the entry's name
    (nothing when none occurs); when that makes no line at all the tooltip
    is the model name instead. In both cases there are at most (number of
    properties other than "status") + 3 lines. *)
Theorem tooltip_of_rendered_node node html :
  render_open fm node = Ok html →
  ∃ telemetry tel_display,
    telemetry_of fm node = Ok telemetry
    ∧ Forall2
        (λ line kv, ∃ num, format_1f kv.2 = Ok num
           ∧ line = kv.1 +:+ ": " +:+ num +:+ first_match unit_table kv.1)
        tel_display (take 3 telemetry)
    ∧ let shown := filter (λ kv, kv.1 ≠ "status") (properties_of node) in
      let items :=
        ((λ kv, kv.1 +:+ ": " +:+ py_str kv.2) <$> shown) ++ tel_display in
      let lines :=
        match items with [] => [model_name_of fm node] | _ => items end in
      html = anchor_html (id node)
               (node_class_of (id node) (status_of node))
               (join "\A" lines) (model_name_of fm node) (status_of node)
      ∧ (length lines ≤ length shown + 3)%nat.
Proof.
  intros (items & (telemetry & tel_display & Ht & Hl & ->)%tooltip_items_Ok
          & ->)%render_open_Ok.
  exists telemetry, tel_display. split; [done|]. split.
  - apply mapM_Ok in Hl. eapply Forall2_impl; [exact Hl|].
    intros line kv. unfold telemetry_line. simpl.
    destruct (format_1f kv.2) as [num|e]; simpl; [|done].
    intros [= <-]. eauto.
  - simpl. split.
    + by rewrite tooltip_of_lines.
    + apply length_telemetry_lines in Hl.
      fold (property_lines (properties_of node)).
      pose proof (length_property_lines (properties_of node)) as Hp.
      destruct (property_lines (properties_of node) ++ tel_display) eqn:Hi.
      * simpl. lia.
      * rewrite <- Hi, length_app. lia.
Qed.

(** C6, as the code has it. A rendered node whose identifier contains
    "pump" (in any case) has the classes "node pump-node", followed by
    "running" when its status is exactly "running", by "stopped" when it is
    exactly "stopped", and by nothing for any other status or none; an
    identifier that contains "tank" and does not contain "pump" has "node
    tank-node"; any other identifier has "node" alone. The last case is
    stated for identifiers of ASCII characters, on which [lower] is
    [str.lower]. *)
Theorem node_class_by_identifier node html :
  render_open fm node = Ok html →
  ∃ cls tooltip,
    html = anchor_html (id node) cls tooltip (model_name_of fm node)
             (status_of node)
    ∧ (contains "pump" (lower (id node)) = true →
         (status_of node = VStr "running" → cls = "node pump-node running")
         ∧ (status_of node = VStr "stopped" → cls = "node pump-node stopped")
         ∧ (status_of node ≠ VStr "running" →
            status_of node ≠ VStr "stopped" → cls = "node pump-node")
         ∧ (dict_get (properties_of node) "status" = None →
            cls = "node pump-node"))
    ∧ (contains "pump" (lower (id node)) = false →
       contains "tank" (lower (id node)) = true → cls = "node tank-node")
    ∧ (is_ascii (id node) = true →
       contains "pump" (lower (id node)) = false →
       contains "tank" (lower (id node)) = false → cls = "node").
Proof.
  intros (items & _ & ->)%render_open_Ok.
  eexists _, _. split; [done|]. unfold node_class_of.
  split_and!.
  - intros ->. split_and!.
    + by intros ->.
    + by intros ->.
    + intros Hr%eq_str_false Hs%eq_str_false. by rewrite Hr, Hs.
    + unfold status_of. by intros ->.
  - by intros -> ->.
  - by intros _ -> ->.
Qed.

(** C10. A node renders without error only if the first three entries of
    its latest telemetry all hold numbers: when one of them holds a string
    or None, formatting it raises and the exception leaves
    [_render_node_html]; a snapshot whose first entry is a string is such an
    input. *)
Theorem non_numeric_telemetry_raises node telemetry :
  telemetry_of fm node = Ok telemetry →
  (∀ html, render_open fm node = Ok html →
     Forall (λ kv, numeric kv.2 = true) (take 3 telemetry))
  ∧ (Exists (λ kv, numeric kv.2 = false) (take 3 telemetry) →
     ∃ e, render_open fm node = Raise e
       ∧ ∀ fuel h l calls, h !! l = Some node →
           _render_node_html fm (S fuel) h l calls
           = (Some (Raise e), S calls))
  ∧ (∀ k s rest, telemetry = (k, VStr s) :: rest →
     render_open fm node = Raise ValueError).
Proof.
  intros Ht. split_and!.
  - intros html (items & (tel & tl & Ht' & Hl & _)%tooltip_items_Ok & _)
      %render_open_Ok.
    assert (tel = telemetry) as -> by congruence.
    apply mapM_Ok in Hl. clear Ht Ht'.
    induction Hl as [|line kv tl l3 Hline _ IH]; constructor; [|done].
    unfold telemetry_line in Hline.
    destruct (format_1f kv.2) as [num|e] eqn:Hf; [|done].
    by eapply format_1f_numeric.
  - intros Hex.
    assert (∃ e, telemetry_lines telemetry = Raise e) as [e He].
    { apply mapM_Raise. eapply Exists_impl; [exact Hex|].
      intros kv [e Hf]%format_1f_not_numeric. exists e.
      unfold telemetry_line. by rewrite Hf. }
    assert (Hr : render_open fm node = Raise e).
    { unfold render_open, tooltip_items. rewrite Ht. simpl. by rewrite He. }
    exists e. split; [done|]. intros fuel h l calls Hl. simpl.
    unfold bind, tick, lift, deref. by rewrite Hl, Hr.
  - intros k s rest ->.
    unfold render_open, tooltip_items. rewrite Ht. done.
Qed.

End RenderFacts.

(** * The recursive walk *)

Section WalkFacts.

Context `{PyFloat}.
Variable fm : FlowModelGenerator.
Variable h : list TreeNode.

Local Abbreviation render := (_render_node_html fm).
Local Abbreviation completes := (completes fm h).

Lemma render_unfold fuel l calls :
  render (S fuel) h l calls =
  match h !! l with
  | None => (Some (Raise Dangling), S calls)
  | Some n =>
      match render_open fm n with
      | Raise e => (Some (Raise e), S calls)
      | Ok html =>
          match children n with
          | [] => (Some (Ok (html +:+ ("</li>" +:+ nl))), S calls)
          | cs =>
              match render_each (render fuel h) (html +:+ ("  <ul>" +:+ nl))
                      cs (S calls) with
              | (Some (Ok html'), calls') =>
                  (Some (Ok ((html' +:+ ("  </ul>" +:+ nl))
                             +:+ ("</li>" +:+ nl))), calls')
              | (Some (Raise e), calls') => (Some (Raise e), calls')
              | (None, calls') => (None, calls')
              end
          end
      end
  end.
Proof.
  simpl. unfold bind, tick, lift, deref, ret.
  destruct (h !! l) as [n|]; [|done].
  destruct (render_open fm n) as [html|e]; [|done].
  destruct (children n) as [|c cs]; [done|].
  destruct (render fuel h c (S calls)) as [[[a|e]|] calls1]; [|done..].
  destruct (render_each _ _ _ _) as [[[?|?]|] ?]; done.
Qed.

Lemma render_each_cons (f : loc → M string) html c cs calls :
  render_each f html (c :: cs) calls =
  match f c calls with
  | (Some (Ok s), calls') => render_each f (html +:+ s) cs calls'
  | (Some (Raise e), calls') => (Some (Raise e), calls')
  | (None, calls') => (None, calls')
  end.
Proof. done. Qed.

(** *** Totality on shallow stores *)

Lemma render_each_total (f : loc → M string) cs :
  Forall (λ c, ∀ calls, ∃ r calls', f c calls = (Some r, calls')) cs →
  ∀ html calls, ∃ r calls', render_each f html cs calls = (Some r, calls').
Proof.
  induction 1 as [|c cs Hc _ IH]; intros html calls.
  - unfold render_each, ret. eauto.
  - rewrite render_each_cons. destruct (Hc calls) as ([s|e] & calls' & ->).
    + apply IH.
    + eauto.
Qed.

Lemma shallow_total d l :
  shallow h d l →
  ∀ calls, ∃ r calls', render d h l calls = (Some r, calls').
Proof.
  revert l. induction d as [|d IH]; intros l Hs calls; [done|].
  rewrite render_unfold. destruct (h !! l) as [n|] eqn:Hl; [|eauto].
  destruct (render_open fm n) as [html|e]; [|eauto].
  specialize (Hs n Hl).
  destruct (children n) as [|c cs] eqn:Hc; [eauto|].
  destruct (render_each_total (render d h) (c :: cs)) with
    (html := html +:+ ("  <ul>" +:+ nl)) (calls := S calls)
    as ([s|e] & calls' & ->); eauto.
  eapply Forall_impl; [exact Hs|]. intros c' Hc'. by apply IH.
Qed.

Lemma shallow_mono d d' l : d ≤ d' → shallow h d l → shallow h d' l.
Proof.
  revert d' l. induction d as [|d IH]; intros d' l Hle Hs; [done|].
  destruct d' as [|d']; [lia|]. simpl. intros n Hn.
  eapply Forall_impl; [exact (Hs n Hn)|]. intros c. apply IH. lia.
Qed.

(** *** Acyclic stores are shallow *)

Lemma valid_locs_length (vs : list loc) :
  NoDup vs → Forall (λ v, v < length h) vs → length vs ≤ length h.
Proof.
  intros Hnd Hv.
  trans (length (seq 0 (length h))); [|by rewrite length_seq].
  apply submseteq_length, NoDup_submseteq; [done|].
  intros v Hin. rewrite Forall_forall in Hv.
  apply elem_of_seq. specialize (Hv v Hin). lia.
Qed.

Lemma acyclic_shallow d visited l :
  closed h →
  NoDup visited →
  Forall (λ v, v < length h ∧ tc (child h) v l) visited →
  l < length h → l ∉ visited →
  (∀ l', rtc (child h) l l' → ¬ tc (child h) l' l') →
  length h ≤ d + length visited →
  shallow h d l.
Proof.
  intros Hclosed. revert visited l.
  induction d as [|d IH]; intros visited l Hnd Hv Hl Hnew Hacyc Hlen.
  - assert (length (l :: visited) ≤ length h); [|simpl in *; lia].
    apply valid_locs_length; [by constructor|].
    constructor; [done|]. eapply Forall_impl; [exact Hv|]. by intros ? [].
  - simpl. intros n Hn. apply Forall_forall. intros c Hc.
    assert (Hlc : child h l c) by (exists n; done).
    apply (IH (l :: visited)).
    + by constructor.
    + constructor.
      * split; [done|]. by apply tc_once.
      * eapply Forall_impl; [exact Hv|]. intros v [? Hvl]. split; [done|].
        eapply tc_r; done.
    + specialize (Hclosed l n Hn). rewrite Forall_forall in Hclosed. auto.
    + intros [->|Hin]%elem_of_cons.
      * apply (Hacyc l); [done|by apply tc_once].
      * rewrite Forall_forall in Hv. destruct (Hv c Hin) as [_ Hcl].
        apply (Hacyc c); [by apply rtc_once|]. eapply tc_r; done.
    + intros l' Hl'. apply Hacyc. by eapply rtc_l.
    + simpl. lia.
Qed.

Lemma acyclic_from_shallow rs r :
  closed h → acyclic_from h rs → r ∈ rs → r < length h →
  shallow h (length h) r.
Proof.
  intros Hclosed Hacyc Hr Hlt.
  apply (acyclic_shallow (length h) [] r); try done.
  - constructor.
  - apply not_elem_of_nil.
  - intros l' Hl'. apply Hacyc. by exists r.
  - simpl. lia.
Qed.

(** *** Counting activations *)

Lemma shallow_occurrences d ls :
  closed h →
  Forall (λ l, l < length h ∧ shallow h d l) ls →
  ∃ k, occurrences h ls k.
Proof.
  intros Hclosed. revert ls. induction d as [|d IH]; intros ls Hls.
  - destruct ls as [|l ls]; [exists 0; constructor|].
    apply Forall_cons in Hls as [[_ []] _].
  - induction Hls as [|l ls [Hl Hs] _ [m Hm]]; [exists 0; constructor|].
    apply lookup_lt_is_Some_2 in Hl as [n Hn].
    destruct (IH (children n)) as [k Hk].
    { specialize (Hs n Hn). specialize (Hclosed l n Hn).
      rewrite Forall_forall in Hs, Hclosed.
      apply Forall_forall. intros c Hc. split; [auto|exact (Hs c Hc)]. }
    exists (S k + m). by apply occ_cons with n.
Qed.

Lemma calls_bound ls occ :
  occurrences h ls occ →
  ∀ fuel html calls,
    (render_each (render fuel h) html ls calls).2 ≤ calls + occ.
Proof.
  induction 1 as [|l ls n k m Hn _ IHk _ IHm]; intros fuel html calls.
  - simpl. lia.
  - rewrite render_each_cons.
    assert (Hl : ∀ o c1, render fuel h l calls = (o, c1) → c1 ≤ calls + S k).
    { destruct fuel as [|fuel]; [intros o c1 [= _ <-]; lia|].
      rewrite render_unfold, Hn. intros o c1.
      destruct (render_open fm n) as [html0|e]; [|intros [= _ <-]; lia].
      destruct (children n) as [|c cs] eqn:Hc; [intros [= _ <-]; lia|].
      specialize (IHk fuel (html0 +:+ ("  <ul>" +:+ nl)) (S calls)).
      destruct (render_each _ _ _ _) as [[[?|?]|] c2];
        intros [= _ <-]; simpl in IHk; lia. }
    destruct (render fuel h l calls) as [[[s|e]|] c1] eqn:Hr;
      specialize (Hl _ _ eq_refl); simpl; try lia.
    specialize (IHm fuel (html +:+ s) c1). lia.
Qed.

(** *** A cycle is never walked to the end *)

Lemma render_each_Ok_inv (f : loc → M string) cs html calls out calls' :
  render_each f html cs calls = (Some (Ok out), calls') →
  ∀ c, c ∈ cs → ∃ c1 s c2, f c c1 = (Some (Ok s), c2).
Proof.
  revert html calls. induction cs as [|c0 cs IH]; intros html calls Hr c Hc.
  - by apply elem_of_nil in Hc.
  - rewrite render_each_cons in Hr.
    destruct (f c0 calls) as [[[s|e]|] c1] eqn:Hf; [|done..].
    apply elem_of_cons in Hc as [->|Hc]; [eauto|].
    by apply (IH _ _ Hr).
Qed.

Lemma completes_child fuel l c :
  completes fuel l → child h l c → ∃ fuel', fuel' < fuel ∧ completes fuel' c.
Proof.
  intros (calls & out & calls' & Hr) (n & Hn & Hc).
  destruct fuel as [|fuel]; [done|]. exists fuel. split; [lia|].
  rewrite render_unfold, Hn in Hr.
  destruct (render_open fm n) as [html|e]; [|done].
  destruct (children n) as [|c0 cs] eqn:Hcs; [by apply elem_of_nil in Hc|].
  destruct (render_each _ _ _ _) as [[[out'|?]|] c2] eqn:He; [|done..].
  destruct (render_each_Ok_inv _ _ _ _ _ _ He c Hc) as (c1 & s & c3 & Hs).
  by exists c1, s, c3.
Qed.

Lemma completes_tc fuel l l' :
  tc (child h) l l' → completes fuel l →
  ∃ fuel', fuel' < fuel ∧ completes fuel' l'.
Proof.
  intros Htc. revert fuel.
  induction Htc as [l l' Hc|l c l' Hc _ IH]; intros fuel Hl.
  - by apply completes_child with l.
  - destruct (completes_child fuel l c Hl Hc) as (f1 & Hlt & Hc1).
    destruct (IH f1 Hc1) as (f2 & Hlt' & Hc2). exists f2. split; [lia|done].
Qed.

Lemma completes_rtc fuel l l' :
  rtc (child h) l l' → completes fuel l → ∃ fuel', completes fuel' l'.
Proof.
  intros [->|Htc]%rtc_tc Hl; [eauto|].
  destruct (completes_tc fuel l l' Htc Hl) as (f & _ & Hf). eauto.
Qed.

Lemma cycle_never_completes l fuel : tc (child h) l l → ¬ completes fuel l.
Proof.
  intros Htc. induction (lt_wf fuel) as [fuel _ IH]. intros Hl.
  destruct (completes_tc fuel l l Htc Hl) as (f & Hlt & Hf).
  by apply (IH f).
Qed.

(** A store that is shallow below [rs] has no cycle reachable from [rs]. *)
Lemma shallowb_shallow d l : shallowb h d l = true → shallow h d l.
Proof.
  revert l. induction d as [|d IH]; intros l; simpl; [done|].
  intros Hb n Hn. rewrite Hn in Hb. apply Forall_forall. intros c Hc.
  apply IH. rewrite forallb_forall in Hb. apply Hb. by apply list_elem_of_In.
Qed.

Lemma shallow_child d l c :
  shallow h d l → child h l c → ∃ d', d' < d ∧ shallow h d' c.
Proof.
  intros Hs (n & Hn & Hc). destruct d as [|d]; [done|].
  exists d. split; [lia|]. specialize (Hs n Hn).
  rewrite Forall_forall in Hs. by apply Hs.
Qed.

Lemma shallow_tc d l l' :
  tc (child h) l l' → shallow h d l → ∃ d', d' < d ∧ shallow h d' l'.
Proof.
  intros Htc. revert d.
  induction Htc as [l l' Hc|l c l' Hc _ IH]; intros d Hs.
  - by apply shallow_child with l.
  - destruct (shallow_child d l c Hs Hc) as (d1 & Hlt & Hs1).
    destruct (IH d1 Hs1) as (d2 & Hlt' & Hs2). exists d2. split; [lia|done].
Qed.

Lemma shallow_no_cycle d l : shallow h d l → ¬ tc (child h) l l.
Proof.
  intros Hs Htc. induction (lt_wf d) as [d _ IH].
  destruct (shallow_tc d l l Htc Hs) as (d' & Hlt & Hs'). by apply (IH d').
Qed.

Lemma shallowb_acyclic d rs :
  forallb (shallowb h d) rs = true → acyclic_from h rs.
Proof.
  intros Hb l (r & Hr & Hrl) Htc.
  rewrite forallb_forall in Hb.
  assert (Hs : shallow h d r).
  { apply shallowb_shallow, Hb. by apply list_elem_of_In. }
  apply rtc_tc in Hrl as [->|Hrl].
  - by apply (shallow_no_cycle d l).
  - destruct (shallow_tc d r l Hrl Hs) as (d' & _ & Hs').
    by apply (shallow_no_cycle d' l).
Qed.

(** A store whose child links all climb some rank has no cycle. *)
Lemma ranked_acyclic (rank : loc → nat) rs :
  (∀ p c, child h p c → rank p < rank c) → acyclic_from h rs.
Proof.
  intros Hrank l _ Htc.
  assert (Hlt : ∀ x y, tc (child h) x y → rank x < rank y).
  { induction 1 as [x y Hc|x y z Hc _ IH]; [by apply Hrank|].
    specialize (Hrank x y Hc). lia. }
  specialize (Hlt l l Htc). lia.
Qed.

End WalkFacts.

(** * Building, then rendering *)

Section Forest.

Context `{PyFloat}.
Variable set_iter : gset string → list string.
Hypothesis set_iter_enum : ∀ X, set_iter X ≡ₚ elements X.
Variable fm : FlowModelGenerator.

Implicit Types (E : list (string * string)) (ks : list string).

Local Abbreviation order_of := (order_of set_iter).
Local Abbreviation linked_node := (linked_node fm).
Local Abbreviation built := (built set_iter fm).
Local Abbreviation build :=
  (build_from_connections set_iter fm TreeGenerator_init).
Local Abbreviation render := (_render_node_html fm).

Lemma idx_lt ks k : NoDup ks → k ∈ ks → idx ks k < length ks.
Proof.
  intros Hnd Hk. destruct (idx_elem_of ks k Hnd Hk) as [_ Hl].
  by eapply lookup_lt_Some.
Qed.

Lemma built_length E : length (heap (built E)) = length (order_of E).
Proof. simpl. by rewrite length_fmap. Qed.

Lemma built_closed E : closed (heap (built E)).
Proof.
  intros l n (k & _ & -> & _)%built_heap_inv; [|done].
  rewrite built_length. simpl. apply Forall_fmap, Forall_forall.
  intros t (e & -> & [_ He]%list_elem_of_filter)%list_elem_of_fmap.
  apply idx_lt; [by apply order_NoDup|].
  by apply (edge_in_order set_iter set_iter_enum).
Qed.

Lemma built_roots_valid E r :
  r ∈ roots (built E) → r < length (heap (built E)).
Proof.
  simpl. intros (k & -> & [_ Hk]%list_elem_of_filter)%list_elem_of_fmap.
  rewrite length_fmap. apply idx_lt; [by apply order_NoDup|done].
Qed.

(** C4. After a build, if no node reachable from the roots lies on a cycle
    of child links, the walk over the roots returns (a document or an
    exception) within a depth budget equal to the number of nodes, and it
    activates [_render_node_html] at most once per node occurrence below the
    roots. Nothing in the walk detects a cycle: if a node reachable from the
    roots lies on one, no depth budget lets the walk return a document. *)
Theorem walk_terminates_when_acyclic E :
  ∃ g, build (mk_conn <$> E) = Ok g
    ∧ (acyclic_from (heap g) (roots g) →
       ∃ occ, occurrences (heap g) (roots g) occ
         ∧ ∀ fuel, length (heap g) ≤ fuel →
             ∃ r calls, render_roots fm fuel g 0 = (Some r, calls)
                        ∧ calls ≤ occ)
    ∧ ((∃ l, reachable (heap g) (roots g) l ∧ tc (child (heap g)) l l) →
       ∀ fuel calls out calls',
         render_roots fm fuel g calls ≠ (Some (Ok out), calls')).
Proof.
  exists (built E). split; [by apply build_edges|]. split.
  - intros Hacyc.
    assert (Hsh : Forall (λ r, r < length (heap (built E))
                     ∧ shallow (heap (built E)) (length (heap (built E))) r)
                    (roots (built E))).
    { apply Forall_forall. intros r Hr.
      pose proof (built_roots_valid E r Hr) as Hlt. split; [done|].
      eapply acyclic_from_shallow; eauto using built_closed. }
    destruct (shallow_occurrences _ _ _ (built_closed E) Hsh) as [occ Hocc].
    exists occ. split; [done|]. intros fuel Hfuel.
    unfold render_roots.
    destruct (render_each_total (render fuel (heap (built E)))
                (roots (built E))) with (html := "") (calls := 0)
      as (r & calls & Hr).
    { eapply Forall_impl; [exact Hsh|]. intros r [_ Hs].
      apply shallow_total. by apply shallow_mono with (length (heap (built E))). }
    exists r, calls. split; [done|].
    pose proof (calls_bound fm _ _ _ Hocc fuel "" 0) as Hb.
    rewrite Hr in Hb. simpl in Hb. lia.
  - intros (l & (r & Hr & Hrl) & Hcyc) fuel calls out calls' Hout.
    unfold render_roots in Hout.
    destruct (render_each_Ok_inv _ _ _ _ _ _ Hout r Hr) as (c1 & s & c2 & Hs).
    destruct (completes_rtc fm _ fuel r l Hrl) as [f Hf].
    { by exists c1, s, c2. }
    exact (cycle_never_completes fm (heap (built E)) l f Hcyc Hf).
Qed.

(** *** One target under two sources *)

Lemma render_leaf h fuel l n open calls :
  h !! l = Some n → children n = [] → render_open fm n = Ok open →
  render (S fuel) h l calls = (Some (Ok (leaf_html open)), S calls).
Proof. intros Hl Hc Ho. by rewrite render_unfold, Hl, Ho, Hc. Qed.

Lemma render_only_child h fuel l n open c kid calls :
  h !! l = Some n → children n = [c] → render_open fm n = Ok open →
  render fuel h c (S calls) = (Some (Ok kid), S (S calls)) →
  render (S fuel) h l calls = (Some (Ok (branch_html open kid)), S (S calls)).
Proof.
  intros Hl Hc Ho Hk. rewrite render_unfold, Hl, Ho, Hc.
  by rewrite render_each_cons, Hk.
Qed.

(** C5. For the edges [(A,C),(B,C)] with three distinct identifiers, the
    build allocates three nodes; the children of A and the children of B
    both consist of the one node of C, which is the same object; the roots
    are A and B; and when the three nodes can be rendered, the document
    holds the markup of C twice, once inside A and once inside B, the same
    text both times. *)
Theorem shared_child_rendered_twice (a b c : string) :
  a ≠ b → a ≠ c → b ≠ c →
  ∃ g la lb lc na nb nc,
    build (mk_conn <$> fan_in a b c) = Ok g
    ∧ length (heap g) = 3
    ∧ dict_get (nodes g) a = Some la ∧ heap g !! la = Some na
    ∧ dict_get (nodes g) b = Some lb ∧ heap g !! lb = Some nb
    ∧ dict_get (nodes g) c = Some lc ∧ heap g !! lc = Some nc
    ∧ children na = [lc] ∧ children nb = [lc] ∧ children nc = []
    ∧ (roots g = [la; lb] ∨ roots g = [lb; la])
    ∧ ∀ oa ob oc,
        render_open fm na = Ok oa → render_open fm nb = Ok ob →
        render_open fm nc = Ok oc →
        ∀ fuel calls,
          render (S (S fuel)) (heap g) la calls
          = (Some (Ok (branch_html oa (leaf_html oc))), S (S calls))
          ∧ render (S (S fuel)) (heap g) lb calls
            = (Some (Ok (branch_html ob (leaf_html oc))), S (S calls))
          ∧ ∃ first second,
              render_roots fm (S (S fuel)) g calls
              = (Some (Ok (("" +:+ branch_html first (leaf_html oc))
                           +:+ branch_html second (leaf_html oc))),
                 4 + calls)
              ∧ (first = oa ∧ second = ob ∨ first = ob ∧ second = oa).
Proof.
  intros Hab Hac Hbc.
  set (E := fan_in a b c). set (ks := order_of E).
  assert (Hp : ks ≡ₚ [a; b; c]).
  { apply (order_of_perm set_iter set_iter_enum).
    - repeat constructor; set_solver.
    - unfold ids_of, E, fan_in. simpl. set_solver. }
  assert (Hin : ∀ k, k ∈ [a; b; c] → k ∈ ks) by (intros k; by rewrite Hp).
  assert (Ha : a ∈ ks) by (apply Hin; set_solver).
  assert (Hb : b ∈ ks) by (apply Hin; set_solver).
  assert (Hc : c ∈ ks) by (apply Hin; set_solver).
  destruct (built_lookup set_iter set_iter_enum fm E a Ha) as [Hda Hha].
  destruct (built_lookup set_iter set_iter_enum fm E b Hb) as [Hdb Hhb].
  destruct (built_lookup set_iter set_iter_enum fm E c Hc) as [Hdc Hhc].
  fold ks in Hda, Hha, Hdb, Hhb, Hdc, Hhc.
  assert (Hca : children (linked_node ks E a) = [idx ks c]).
  { unfold E, fan_in. simpl. rewrite !filter_cons, filter_nil. simpl.
    by rewrite decide_True, decide_False. }
  assert (Hcb : children (linked_node ks E b) = [idx ks c]).
  { unfold E, fan_in. simpl. rewrite !filter_cons, filter_nil. simpl.
    by rewrite decide_False, decide_True. }
  assert (Hcc : children (linked_node ks E c) = []).
  { unfold E, fan_in. simpl. rewrite !filter_cons, filter_nil. simpl.
    by rewrite !decide_False. }
  assert (Hroots : filter (λ k, k ∉ E.*2) ks = [a; b]
                   ∨ filter (λ k, k ∉ E.*2) ks = [b; a]).
  { assert (Hf : filter (λ k, k ∉ E.*2) ks ≡ₚ [a; b]).
    { rewrite Hp. unfold E, fan_in. simpl.
      rewrite !filter_cons, filter_nil.
      rewrite !decide_True by set_solver.
      rewrite decide_False by set_solver. done. }
    symmetry in Hf. apply Permutation_length_2_inv in Hf. tauto. }
  exists (built E), (idx ks a), (idx ks b), (idx ks c),
    (linked_node ks E a), (linked_node ks E b), (linked_node ks E c).
  split; [by apply build_edges|].
  split; [by rewrite built_length; fold ks; rewrite Hp|].
  split_and!; try done.
  { change (roots (built E)) with (idx ks <$> filter (λ k, k ∉ E.*2) ks).
    destruct Hroots as [-> | ->]; auto. }
  intros oa ob oc Hoa Hob Hoc fuel calls.
  assert (Hrc : ∀ k, render (S fuel) (heap (built E)) (idx ks c) k
                     = (Some (Ok (leaf_html oc)), S k)).
  { intros k. by apply render_leaf with (linked_node ks E c). }
  assert (Hra : ∀ k, render (S (S fuel)) (heap (built E)) (idx ks a) k
              = (Some (Ok (branch_html oa (leaf_html oc))), S (S k))).
  { intros k. by eapply render_only_child. }
  assert (Hrb : ∀ k, render (S (S fuel)) (heap (built E)) (idx ks b) k
              = (Some (Ok (branch_html ob (leaf_html oc))), S (S k))).
  { intros k. by eapply render_only_child. }
  split; [done|]. split; [done|].
  unfold render_roots.
  change (roots (built E)) with (idx ks <$> filter (λ k, k ∉ E.*2) ks).
  destruct Hroots as [-> | ->]; simpl fmap.
  - exists oa, ob. rewrite render_each_cons, Hra. cbv beta iota.
    rewrite render_each_cons, Hrb. split; [done|auto].
  - exists ob, oa. rewrite render_each_cons, Hrb. cbv beta iota.
    rewrite render_each_cons, Hra. split; [done|auto].
Qed.

(** *** Missing data *)


End Forest.

(** * Closed examples

    The theorems above, applied to [demo_flow], with the set enumerated by
    [elements] and floats read as tenths. *)

Section Examples.

Local Abbreviation build :=
  (build_from_connections elements demo_flow TreeGenerator_init).

Lemma elements_enum (X : gset string) : elements X ≡ₚ elements X.
Proof. reflexivity. Defined.

Lemma abcd_builds : build (mk_conn <$> abcd) = Ok abcd_forest.
Proof. vm_compute. reflexivity. Qed.

Lemma looping_builds : build (mk_conn <$> looping) = Ok looping_forest.
Proof. vm_compute. reflexivity. Qed.

Lemma twice_builds : build (mk_conn <$> twice) = Ok twice_forest.
Proof. vm_compute. reflexivity. Qed.

Lemma unnamed_builds : build (mk_conn <$> unnamed_source) = Ok unnamed_forest.
Proof. vm_compute. reflexivity. Qed.


Lemma root_iff_never_target_witness :
  ∃ g, build (mk_conn <$> abcd) = Ok g
    ∧ ∀ l n, heap g !! l = Some n → (l ∈ roots g ↔ id n ∉ abcd.*2).
Proof.
  exact (proj1 (root_iff_never_target elements elements_enum demo_flow) abcd).
Defined.

Lemma children_follow_edge_order_witness :
  ∃ g, build (mk_conn <$> twice) = Ok g
    ∧ (∀ s, s ∈ twice.*1 ∨ s ∈ twice.*2 →
         ∃ l n, dict_get (nodes g) s = Some l ∧ heap g !! l = Some n
                ∧ id n = s
                ∧ Forall2 (node_of g) (children n)
                    (filter (λ e, e.1 = s) twice).*2)
    ∧ (∀ s t ls lt ns,
         dict_get (nodes g) s = Some ls → dict_get (nodes g) t = Some lt →
         heap g !! ls = Some ns →
         length (filter (λ c, c = lt) (children ns))
         = length (filter (λ e, e = (s, t)) twice)).
Proof.
  exact (children_follow_edge_order elements elements_enum demo_flow twice).
Defined.

Lemma parent_is_last_source_witness :
  ∃ g, build (mk_conn <$> fan_in "A" "B" "C") = Ok g
    ∧ ∀ t lt nt,
        dict_get (nodes g) t = Some lt → heap g !! lt = Some nt →
        match last (filter (λ e, e.2 = t) (fan_in "A" "B" "C")).*1 with
        | None => parent nt = None
        | Some s' =>
            (∃ l', dict_get (nodes g) s' = Some l' ∧ parent nt = Some l')
            ∧ ∀ s ls, (s, t) ∈ fan_in "A" "B" "C" → s ≠ s' →
                dict_get (nodes g) s = Some ls → parent nt ≠ Some ls
        end
        ∧ ∀ s, (s, t) ∈ fan_in "A" "B" "C" →
            ∃ ls ns, dict_get (nodes g) s = Some ls
                     ∧ heap g !! ls = Some ns ∧ lt ∈ children ns.
Proof.
  exact (parent_is_last_source elements elements_enum demo_flow
           (fan_in "A" "B" "C")).
Defined.

Lemma empty_identifier_builds_a_node_witness :
  ∃ g, build (mk_conn <$> unnamed_source) = Ok g
    ∧ (∀ k, k ∈ unnamed_source.*1 ∨ k ∈ unnamed_source.*2 →
         ∃ l, node_of g l k)
    ∧ ∀ s t, (s, t) ∈ unnamed_source → s = "" ∨ t = "" →
        ∃ ls lt ns, node_of g ls s ∧ node_of g lt t
                    ∧ heap g !! ls = Some ns ∧ lt ∈ children ns.
Proof.
  exact (empty_identifier_builds_a_node elements elements_enum demo_flow
           unnamed_source).
Defined.

(** The claim of C8 fails on the edge [("", "tank-001")]: the build returns
    a generator, in which the empty identifier has a node of its own. *)
Lemma empty_source_is_accepted :
  ∃ g l n, build (mk_conn <$> unnamed_source) = Ok g
    ∧ dict_get (nodes g) "" = Some l ∧ heap g !! l = Some n
    ∧ id n = "" ∧ children n = [0] ∧ roots g = [l].
Proof.
  exists unnamed_forest, 1,
    {| id := ""; data := empty_payload; children := [0]; parent := None |}.
  split; [exact unnamed_builds|]. split_and!; reflexivity.
Defined.

Lemma tooltip_of_rendered_node_witness :
  render_open demo_flow pump_node = Ok pump_open
  ∧ ∃ telemetry tel_display,
      telemetry_of demo_flow pump_node = Ok telemetry
      ∧ Forall2
          (λ line kv, ∃ num, format_1f kv.2 = Ok num
             ∧ line = kv.1 +:+ ": " +:+ num +:+ first_match unit_table kv.1)
          tel_display (take 3 telemetry)
      ∧ let shown :=
          filter (λ kv, kv.1 ≠ "status") (properties_of pump_node) in
        let items :=
          ((λ kv, kv.1 +:+ ": " +:+ py_str kv.2) <$> shown) ++ tel_display in
        let lines :=
          match items with
          | [] => [model_name_of demo_flow pump_node]
          | _ => items
          end in
        pump_open
        = anchor_html (id pump_node)
            (node_class_of (id pump_node) (status_of pump_node))
            (join "\A" lines) (model_name_of demo_flow pump_node)
            (status_of pump_node)
        ∧ length lines ≤ length shown + 3.
Proof.
  split; [vm_compute; reflexivity|].
  apply (tooltip_of_rendered_node demo_flow pump_node pump_open).
  vm_compute; reflexivity.
Defined.

(** The claim of C2 fails on a node without properties and telemetry: no
    property line and no telemetry line exist, and the tooltip is not empty
    but the model name. *)
Lemma tooltip_is_model_name_without_lines :
  tooltip_items demo_flow bare_node = Ok []
  ∧ render_open demo_flow bare_node
    = Ok (anchor_html "valve-7" "node" "Unknown" "Unknown" (VStr ""))
  ∧ tooltip_of (model_name_of demo_flow bare_node) [] ≠ join "\A" [].
Proof.
  split_and!; [vm_compute; reflexivity..|].
  vm_compute. discriminate.
Defined.

Lemma node_class_by_identifier_witness :
  render_open demo_flow pump_node = Ok pump_open
  ∧ ∃ cls tooltip,
      pump_open
      = anchor_html (id pump_node) cls tooltip
          (model_name_of demo_flow pump_node) (status_of pump_node)
      ∧ (contains "pump" (lower (id pump_node)) = true →
           (status_of pump_node = VStr "running" →
            cls = "node pump-node running")
           ∧ (status_of pump_node = VStr "stopped" →
              cls = "node pump-node stopped")
           ∧ (status_of pump_node ≠ VStr "running" →
              status_of pump_node ≠ VStr "stopped" → cls = "node pump-node")
           ∧ (dict_get (properties_of pump_node) "status" = None →
              cls = "node pump-node"))
      ∧ (contains "pump" (lower (id pump_node)) = false →
         contains "tank" (lower (id pump_node)) = true →
         cls = "node tank-node")
      ∧ (is_ascii (id pump_node) = true →
         contains "pump" (lower (id pump_node)) = false →
         contains "tank" (lower (id pump_node)) = false → cls = "node").
Proof.
  split; [vm_compute; reflexivity|].
  apply (node_class_by_identifier demo_flow pump_node pump_open).
  vm_compute; reflexivity.
Defined.

(** The claim of C6 fails on the identifier "pump-tank-01": it contains
    "tank", and the node is rendered without the tank class. *)
Lemma pump_tank_has_no_tank_class :
  contains "tank" (lower (id pump_tank_node)) = true
  ∧ render_open demo_flow pump_tank_node
    = Ok (anchor_html "pump-tank-01" "node pump-node" "Unknown" "Unknown"
            (VStr ""))
  ∧ contains "tank-node"
      (node_class_of (id pump_tank_node) (status_of pump_tank_node)) = false.
Proof.
  split_and!; vm_compute; reflexivity.
Defined.

Lemma non_numeric_telemetry_raises_witness :
  telemetry_of demo_flow tank_node
  = Ok [("level", VStr "high"); ("temperature", VFloat 215%Z)]
  ∧ render_open demo_flow tank_node = Raise ValueError
  ∧ ∀ fuel h l calls, h !! l = Some tank_node →
      _render_node_html demo_flow (S fuel) h l calls
      = (Some (Raise ValueError), S calls).
Proof.
  assert (Ht : telemetry_of demo_flow tank_node
               = Ok [("level", VStr "high"); ("temperature", VFloat 215%Z)])
    by (vm_compute; reflexivity).
  destruct (non_numeric_telemetry_raises demo_flow tank_node _ Ht)
    as (_ & Hraise & Hstr).
  pose proof (Hstr _ _ _ eq_refl) as Hv.
  split_and!; [done..|].
  destruct Hraise as (e & He & Hwalk).
  { apply Exists_cons_hd. reflexivity. }
  rewrite Hv in He. injection He as <-. exact Hwalk.
Defined.

(** The forest built from [abcd] has no path of four links. *)
Lemma abcd_acyclic g :
  build (mk_conn <$> abcd) = Ok g → acyclic_from (heap g) (roots g).
Proof.
  intros Hg. assert (Heq : Ok g = Ok abcd_forest).
  { rewrite <- Hg. exact abcd_builds. }
  injection Heq as ->.
  apply shallowb_acyclic with (d := 4). vm_compute. reflexivity.
Qed.

(** In the forest built from [looping], A is its own child and a child of
    the root R. *)
Lemma looping_cycle g :
  build (mk_conn <$> looping) = Ok g →
  ∃ l, reachable (heap g) (roots g) l ∧ tc (child (heap g)) l l.
Proof.
  intros Hg. assert (Heq : Ok g = Ok looping_forest).
  { rewrite <- Hg. exact looping_builds. }
  injection Heq as ->. exists 0.
  assert (Hc : ∀ p, p < 2 → child (heap looping_forest) p 0).
  { intros [|[|p]] Hp; [| |lia]; eexists; (split; [reflexivity|]); left. }
  split.
  - exists 1. split; [left|]. apply rtc_once, Hc. lia.
  - apply tc_once, Hc. lia.
Qed.

Lemma walk_terminates_when_acyclic_witness :
  (∃ g, build (mk_conn <$> abcd) = Ok g
     ∧ acyclic_from (heap g) (roots g)
     ∧ ∃ occ, occurrences (heap g) (roots g) occ
         ∧ ∀ fuel, length (heap g) ≤ fuel →
             ∃ r calls, render_roots demo_flow fuel g 0 = (Some r, calls)
                        ∧ calls ≤ occ)
  ∧ (∃ g, build (mk_conn <$> looping) = Ok g
       ∧ (∃ l, reachable (heap g) (roots g) l ∧ tc (child (heap g)) l l)
       ∧ ∀ fuel calls out calls',
           render_roots demo_flow fuel g calls ≠ (Some (Ok out), calls')).
Proof.
  split.
  - destruct (walk_terminates_when_acyclic elements elements_enum demo_flow
                abcd) as (g & Hg & Hacyclic & _).
    exists g. split; [exact Hg|].
    split; [exact (abcd_acyclic g Hg)|].
    exact (Hacyclic (abcd_acyclic g Hg)).
  - destruct (walk_terminates_when_acyclic elements elements_enum demo_flow
                looping) as (g & Hg & _ & Hcyclic).
    exists g. split; [exact Hg|].
    split; [exact (looping_cycle g Hg)|].
    exact (Hcyclic (looping_cycle g Hg)).
Defined.

Lemma shared_child_rendered_twice_witness :
  "A" ≠ "B" ∧ "A" ≠ "C" ∧ "B" ≠ "C"
  ∧ ∃ g la lb lc na nb nc,
      build (mk_conn <$> fan_in "A" "B" "C") = Ok g
      ∧ length (heap g) = 3
      ∧ dict_get (nodes g) "A" = Some la ∧ heap g !! la = Some na
      ∧ dict_get (nodes g) "B" = Some lb ∧ heap g !! lb = Some nb
      ∧ dict_get (nodes g) "C" = Some lc ∧ heap g !! lc = Some nc
      ∧ children na = [lc] ∧ children nb = [lc] ∧ children nc = []
      ∧ (roots g = [la; lb] ∨ roots g = [lb; la])
      ∧ ∀ oa ob oc,
          render_open demo_flow na = Ok oa →
          render_open demo_flow nb = Ok ob →
          render_open demo_flow nc = Ok oc →
          ∀ fuel calls,
            _render_node_html demo_flow (S (S fuel)) (heap g) la calls
            = (Some (Ok (branch_html oa (leaf_html oc))), S (S calls))
            ∧ _render_node_html demo_flow (S (S fuel)) (heap g) lb calls
              = (Some (Ok (branch_html ob (leaf_html oc))), S (S calls))
            ∧ ∃ first second,
                render_roots demo_flow (S (S fuel)) g calls
                = (Some (Ok (("" +:+ branch_html first (leaf_html oc))
                             +:+ branch_html second (leaf_html oc))),
                   4 + calls)
                ∧ (first = oa ∧ second = ob ∨ first = ob ∧ second = oa).
Proof.
  split_and!; [discriminate..|].
  apply (shared_child_rendered_twice elements elements_enum demo_flow
           "A" "B" "C"); discriminate.
Defined.



End Examples.

(** * The builder on any generator and any connection dictionaries *)

Section BuildAnywhere.

Context `{PyFloat}.
Variable set_iter : gset string → list string.
Variable fm : FlowModelGenerator.

Implicit Types (E : list (string * string)) (g : TreeGenerator).

Local Abbreviation build := (build_from_connections set_iter fm).

Lemma reads_conn_get c e :
  reads c e → conn_get c "source" = Ok e.1 ∧ conn_get c "target" = Ok e.2.
Proof. intros [Hs Ht]. unfold conn_get. by rewrite Hs, Ht. Qed.

Lemma collect_ids_pairs E X :
  collect_ids (mk_conn <$> E) X = Ok (X ∪ ids_of E).
Proof.
  revert X. induction E as [|e E IH]; intros X; simpl.
  - f_equal. unfold ids_of. clear. set_solver.
  - rewrite conn_get_source, conn_get_target. simpl. rewrite IH.
    f_equal. unfold ids_of. clear. set_solver.
Qed.

Lemma collect_ids_reads conns E X :
  Forall2 reads conns E →
  collect_ids conns X = collect_ids (mk_conn <$> E) X.
Proof.
  intros Hr. revert X. induction Hr as [|c e conns E Hc _ IH]; intros X.
  - done.
  - destruct (reads_conn_get c e Hc) as [Hs Ht]. simpl.
    rewrite Hs, Ht, conn_get_source, conn_get_target. simpl. apply IH.
Qed.

Lemma link_reads conns E g C :
  Forall2 reads conns E → link conns g C = link (mk_conn <$> E) g C.
Proof.
  intros Hr. revert g C. induction Hr as [|c e conns E Hc _ IH]; intros g C.
  - done.
  - destruct (reads_conn_get c e Hc) as [Hs Ht]. simpl.
    rewrite Hs, Ht, conn_get_source, conn_get_target. simpl.
    destruct (dict_get (nodes g) e.1), (dict_get (nodes g) e.2); apply IH.
Qed.

(** X1. A build reads nothing of a connection but its "source" and
    "target" entries: when every dictionary holds both keys the build
    returns a generator, the one it returns for the bare pairs. *)
Theorem build_reads_source_and_target g conns E :
  Forall2 reads conns E →
  ∃ g', build g conns = Ok g' ∧ build g (mk_conn <$> E) = Ok g'.
Proof.
  intros Hr. unfold build_from_connections.
  rewrite (collect_ids_reads conns E ∅ Hr), collect_ids_pairs. simpl.
  rewrite (link_reads conns E _ ∅ Hr), link_edges. simpl. eauto.
Qed.

Lemma collect_ids_missing good E c rest X k :
  Forall2 reads good E → missing_key c = Some k →
  collect_ids (good ++ c :: rest) X = Raise (KeyError k).
Proof.
  intros Hr Hk. revert X.
  induction Hr as [|c0 e good E Hc _ IH]; intros X; simpl.
  - unfold missing_key in Hk. unfold conn_get.
    destruct (c !! "source"); [|by injection Hk as <-].
    destruct (c !! "target"); [done|by injection Hk as <-].
  - destruct (reads_conn_get c0 e Hc) as [Hs Ht].
    rewrite Hs, Ht. simpl. apply IH.
Qed.

(** X2. The first connection that lacks a key decides the outcome of a
    build: [KeyError] for "source" when that key is missing, for "target"
    when only that one is; later connections are not looked at. *)
Theorem build_missing_key g good E c rest k :
  Forall2 reads good E → missing_key c = Some k →
  build g (good ++ c :: rest) = Raise (KeyError k).
Proof.
  intros Hr Hk. unfold build_from_connections.
  by rewrite (collect_ids_missing good E c rest ∅ k Hr Hk).
Qed.

End BuildAnywhere.

(** * Building again on a generator that holds nodes *)

Section Rebuild.

Context `{PyFloat}.
Variable set_iter : gset string → list string.
Hypothesis set_iter_enum : ∀ X, set_iter X ≡ₚ elements X.
Variable fm : FlowModelGenerator.

Implicit Types (E : list (string * string)) (g : TreeGenerator).

Local Abbreviation build := (build_from_connections set_iter fm).
Local Abbreviation fresh_node :=
  (λ k, TreeNode_init k (default empty_payload (twin_instances fm !! k))).

Lemma dict_get_set {V} (d : dict V) k v k' :
  dict_get (dict_set d k v) k'
  = if decide (k = k') then Some v else dict_get d k'.
Proof.
  induction d as [|[k0 v0] d IH]; simpl.
  - done.
  - destruct (decide (k0 = k)) as [->|Hne]; simpl.
    + by destruct (decide (k = k')).
    + rewrite IH. destruct (decide (k0 = k')) as [->|?]; [|done].
      by rewrite decide_False.
Qed.

Lemma create_nodes_any ks g :
  heap (foldl (create_node fm) g ks) = heap g ++ (fresh_node <$> ks)
  ∧ roots (foldl (create_node fm) g ks) = roots g
  ∧ (∀ k, k ∉ ks →
       dict_get (nodes (foldl (create_node fm) g ks)) k = dict_get (nodes g) k)
  ∧ (NoDup ks → ∀ i k, ks !! i = Some k →
       dict_get (nodes (foldl (create_node fm) g ks)) k
       = Some (length (heap g) + i)).
Proof.
  revert g. induction ks as [|k0 ks IH]; intros g.
  - simpl. rewrite app_nil_r. split_and!; done.
  - destruct (IH (create_node fm g k0)) as (Hh & Hr & Hout & Hin).
    simpl. split_and!.
    + rewrite Hh. simpl. by rewrite <- app_assoc.
    + by rewrite Hr.
    + intros k [Hne Hk]%not_elem_of_cons. rewrite (Hout k Hk). simpl.
      rewrite dict_get_set. by rewrite decide_False.
    + intros [Hk0 Hnd]%NoDup_cons i k Hi. destruct i as [|i]; simpl in Hi.
      * injection Hi as <-. rewrite (Hout k0 Hk0). simpl.
        rewrite dict_get_set, decide_True by done. f_equal. lia.
      * rewrite (Hin Hnd i k Hi). simpl. rewrite length_app. simpl.
        f_equal. lia.
Qed.

Lemma link_edge_any E (a : TreeGenerator * gset string) n0 :
  (∀ e k l, e ∈ E → k = e.1 ∨ k = e.2 →
     dict_get (nodes a.1) k = Some l → n0 ≤ l) →
  nodes (foldl link_edge a E).1 = nodes a.1
  ∧ roots (foldl link_edge a E).1 = roots a.1
  ∧ take n0 (heap (foldl link_edge a E).1) = take n0 (heap a.1)
  ∧ length (heap (foldl link_edge a E).1) = length (heap a.1)
  ∧ (∀ i, id <$> heap (foldl link_edge a E).1 !! i = id <$> heap a.1 !! i)
  ∧ (∀ k, k ∈ (foldl link_edge a E).2 → k ∈ a.2 ∨ k ∈ E.*2).
Proof.
  revert a. induction E as [|e E IH]; intros a Hfresh.
  - simpl. split_and!; auto.
  - simpl. set (a' := link_edge a e).
    assert (Ha' : nodes a'.1 = nodes a.1 ∧ roots a'.1 = roots a.1
              ∧ take n0 (heap a'.1) = take n0 (heap a.1)
              ∧ length (heap a'.1) = length (heap a.1)
              ∧ (∀ i, id <$> heap a'.1 !! i = id <$> heap a.1 !! i)
              ∧ (∀ k, k ∈ a'.2 → k ∈ a.2 ∨ k = e.2)).
    { unfold a', link_edge.
      destruct (dict_get (nodes a.1) e.1) as [s|] eqn:Hs;
        [|split_and!; auto].
      destruct (dict_get (nodes a.1) e.2) as [t|] eqn:Ht;
        [|split_and!; auto].
      simpl. unfold add_child. split_and!; try done.
      - rewrite !take_alter_ge; [done|..].
        + apply (Hfresh e e.2 t); [left|by right|done].
        + apply (Hfresh e e.1 s); [left|by left|done].
      - by rewrite !length_alter.
      - intros i. rewrite !list_lookup_alter.
        destruct (decide (s = i)) as [->|?], (decide (t = i)) as [->|?];
          try done;
          repeat match goal with
            | |- context [heap a.1 !! ?j] => destruct (heap a.1 !! j)
            end; done.
      - intros k [?|Hk%elem_of_singleton]%elem_of_union; auto. }
    destruct Ha' as (Hn & Hr & Ht & Hl & Hi & Hc).
    destruct (IH a') as (Hn' & Hr' & Ht' & Hl' & Hi' & Hc').
    { intros e' k l He' Hk. rewrite Hn. apply (Hfresh e'); [by right|done]. }
    split_and!; try congruence.
    intros k [Hk|Hk]%Hc'; [|right; by right].
    destruct (Hc k Hk) as [?| ->]; [by left|right; left].
Qed.

(** X3. Building on a generator that already holds nodes leaves the old
    node objects as they were and allocates one new object per identifier
    of the new edge list, which takes over the identifier's entry; an
    identifier of the old generator that the new edges do not mention keeps
    its old node, and that node is a root of the new forest, whatever it
    was before. *)
Theorem rebuild_keeps_old_nodes g E :
  ∃ g', build g (mk_conn <$> E) = Ok g'
    ∧ take (length (heap g)) (heap g') = heap g
    ∧ length (heap g') = length (heap g) + size (ids_of E)
    ∧ (∀ k, k ∈ ids_of E →
         ∃ l, node_of g' l k ∧ length (heap g) ≤ l < length (heap g'))
    ∧ (∀ k l, k ∉ ids_of E → dict_get (nodes g) k = Some l →
         dict_get (nodes g') k = Some l ∧ l ∈ roots g').
Proof.
  set (ks := set_iter (ids_of E)).
  assert (Hnd : NoDup ks).
  { unfold ks. rewrite set_iter_enum. apply NoDup_elements. }
  assert (Hks : ∀ k, k ∈ ks ↔ k ∈ ids_of E).
  { intros k. unfold ks. by rewrite set_iter_enum, elem_of_elements. }
  assert (Hlen : length ks = size (ids_of E)).
  { unfold ks. by rewrite set_iter_enum. }
  set (g1 := foldl (create_node fm) g ks).
  destruct (create_nodes_any ks g) as (Hh1 & Hr1 & Hout1 & Hin1).
  fold g1 in Hh1, Hr1, Hout1, Hin1.
  destruct (link_edge_any E (g1, ∅) (length (heap g)))
    as (Hn & Hr & Ht & Hl & Hi & Hc).
  { intros e k l He Hk Hd. simpl in Hd.
    assert (Hin : k ∈ ks).
    { apply Hks. unfold ids_of. rewrite elem_of_list_to_set, elem_of_app.
      destruct Hk as [-> | ->]; [left|right]; apply list_elem_of_fmap; eauto. }
    apply list_elem_of_lookup_1 in Hin as [i Hi'].
    rewrite (Hin1 Hnd i k Hi') in Hd. injection Hd as <-. lia. }
  simpl in Hn, Hr, Ht, Hl, Hi, Hc.
  set (r := foldl link_edge (g1, ∅) E) in *.
  exists {| heap := heap r.1; nodes := nodes r.1;
            roots := find_roots (nodes r.1) r.2 |}.
  split.
  { unfold build_from_connections. rewrite collect_ids_pairs. simpl.
    rewrite (left_id_L ∅ (∪)). fold ks. fold g1.
    rewrite link_edges. simpl. done. }
  simpl. split_and!.
  - rewrite Ht, Hh1. by rewrite take_app_length.
  - rewrite Hl, Hh1, length_app, length_fmap. lia.
  - intros k [i Hi']%Hks%list_elem_of_lookup_1.
    exists (length (heap g) + i). split.
    + split; simpl.
      * rewrite Hn. by apply Hin1.
      * rewrite Hi, Hh1, lookup_app_r by lia.
        replace (length (heap g) + i - length (heap g)) with i by lia.
        by rewrite list_lookup_fmap, Hi'.
    + rewrite Hl, Hh1, length_app, length_fmap.
      apply lookup_lt_Some in Hi'. lia.
  - intros k l Hk Hd.
    assert (Hd' : dict_get (nodes r.1) k = Some l).
    { rewrite Hn, Hout1; [done|]. by rewrite Hks. }
    split; [done|]. unfold find_roots.
    apply list_elem_of_fmap. exists (k, l). split; [done|].
    apply list_elem_of_filter. split; [|by apply dict_get_elem_of].
    simpl. intros [Hin|Hin]%Hc; [set_solver|].
    apply Hk. unfold ids_of. rewrite elem_of_list_to_set, elem_of_app. auto.
Qed.

End Rebuild.

(** * Invariants of a forest built on a fresh generator *)

Section ForestInvariants.

Context `{PyFloat}.
Variable set_iter : gset string → list string.
Hypothesis set_iter_enum : ∀ X, set_iter X ≡ₚ elements X.
Variable fm : FlowModelGenerator.

Implicit Types (E : list (string * string)) (ks : list string).

Local Abbreviation order_of := (order_of set_iter).
Local Abbreviation linked_node := (linked_node fm).
Local Abbreviation built := (built set_iter fm).
Local Abbreviation build :=
  (build_from_connections set_iter fm TreeGenerator_init).

Lemma fst_imap_index ks : (imap (λ i x, (x, i)) ks).*1 = ks.
Proof.
  assert (Hgen : ∀ l (F : nat → string → string * nat),
            (∀ i x, (F i x).1 = x) → (imap F l).*1 = l).
  { induction l as [|x l IH]; intros F HF; [done|].
    simpl. rewrite HF. f_equal. apply (IH (F ∘ S)). intros i y. apply HF. }
  by apply Hgen.
Qed.

(** X4. After a build on a fresh generator, [self.nodes] has one entry per
    identifier that occurs in the edge list, sources and targets alike, and
    none twice; there are as many node objects as identifiers, and every
    node object is the one registered under its own identifier. *)
Theorem one_node_per_identifier E :
  ∃ g, build (mk_conn <$> E) = Ok g
    ∧ NoDup (nodes g).*1
    ∧ (∀ k, k ∈ (nodes g).*1 ↔ k ∈ E.*1 ∨ k ∈ E.*2)
    ∧ length (heap g) = size (ids_of E)
    ∧ length (nodes g) = size (ids_of E)
    ∧ ∀ l n, heap g !! l = Some n → dict_get (nodes g) (id n) = Some l.
Proof.
  exists (built E). split; [by apply build_edges|].
  pose proof (order_NoDup set_iter set_iter_enum E) as Hnd.
  assert (Hlen : length (order_of E) = size (ids_of E)).
  { unfold order_of. by rewrite set_iter_enum. }
  simpl. rewrite fst_imap_index, length_fmap, length_imap.
  split_and!; try done.
  - intros k. by apply elem_of_order.
  - intros l n Hl. rewrite list_lookup_fmap in Hl.
    destruct (order_of E !! l) as [k|] eqn:Hk; [|done].
    injection Hl as <-. simpl.
    by apply (dict_get_imap (λ j, j)).
Qed.

Lemma last_fmap_None {A B} (f : A → B) (l : list A) :
  last (f <$> l) = None ↔ l = [].
Proof.
  rewrite last_None. split; [apply fmap_nil_inv|by intros ->].
Qed.

Lemma no_edge_into E k :
  filter (λ e : string * string, e.2 = k) E = [] ↔ k ∉ E.*2.
Proof.
  induction E as [|e E IH]; [by split; [intros _; apply not_elem_of_nil|]|].
  rewrite filter_cons, fmap_cons, not_elem_of_cons.
  destruct (decide (e.2 = k)) as [Heq|Hne].
  - split; [done|]. intros [Hk _]. by destruct Hk.
  - rewrite IH. split; [intros ?; split; congruence|by intros [_ ?]].
Qed.

(** X5. In a forest built on a fresh generator the roots are exactly the
    nodes whose parent reference is empty. *)
Theorem roots_are_the_parentless_nodes E :
  ∃ g, build (mk_conn <$> E) = Ok g
    ∧ ∀ l n, heap g !! l = Some n → (l ∈ roots g ↔ parent n = None).
Proof.
  exists (built E). split; [by apply build_edges|].
  intros l n Hl.
  rewrite (built_roots set_iter set_iter_enum fm E l n Hl).
  apply (built_heap_inv set_iter set_iter_enum) in Hl as (k & _ & -> & _).
  simpl. rewrite fmap_None, last_fmap_None. symmetry. apply no_edge_into.
Qed.

(** X6. In a forest built on a fresh generator every stored reference
    points to a node object: the entries of [self.nodes], the roots, the
    children and the parents. The two directions of a link agree: the parent
    of a node lists that node among its children, and every child of a node
    has a parent. *)
Theorem references_are_valid_and_consistent E :
  ∃ g, build (mk_conn <$> E) = Ok g
    ∧ (∀ k l, dict_get (nodes g) k = Some l → l < length (heap g))
    ∧ (∀ r, r ∈ roots g → r < length (heap g))
    ∧ (∀ l n c, heap g !! l = Some n → c ∈ children n →
         ∃ nc, heap g !! c = Some nc ∧ is_Some (parent nc))
    ∧ (∀ l n p, heap g !! l = Some n → parent n = Some p →
         ∃ np, heap g !! p = Some np ∧ l ∈ children np).
Proof.
  exists (built E). split; [by apply build_edges|].
  pose proof (order_NoDup set_iter set_iter_enum E) as Hnd.
  split_and!.
  - intros k l [Hk ->]%(built_dict_inv set_iter set_iter_enum).
    rewrite built_length. by apply idx_lt.
  - apply (built_roots_valid set_iter set_iter_enum).
  - intros l n c (k & _ & -> & _)%(built_heap_inv set_iter set_iter_enum) Hc.
    simpl in Hc.
    apply list_elem_of_fmap in Hc as (t & -> & Ht).
    apply list_elem_of_fmap in Ht as (e & -> & [He Hin]%list_elem_of_filter).
    destruct (edge_in_order set_iter set_iter_enum E e Hin) as [_ Ht].
    destruct (built_lookup set_iter set_iter_enum fm E _ Ht) as [_ Hh].
    eexists. split; [exact Hh|]. simpl.
    destruct (last _) as [s|] eqn:Hlast; [by eexists|].
    apply last_fmap_None, no_edge_into in Hlast. exfalso. apply Hlast.
    apply list_elem_of_fmap. eauto.
  - intros l n p (k & Hk & -> & Hidx)%(built_heap_inv set_iter set_iter_enum).
    simpl. intros Hp.
    destruct (last _) as [s|] eqn:Hlast; [|done]. injection Hp as <-.
    apply last_Some_elem_of, list_elem_of_fmap in Hlast
      as (e & -> & [He Hin]%list_elem_of_filter).
    destruct (edge_in_order set_iter set_iter_enum E e Hin) as [Hs _].
    destruct (built_lookup set_iter set_iter_enum fm E _ Hs) as [_ Hh].
    eexists. split; [exact Hh|]. simpl.
    apply list_elem_of_fmap. exists k. split; [done|].
    apply list_elem_of_fmap. exists e. split; [done|].
    by apply list_elem_of_filter.
Qed.

(** X7. An empty edge list builds the empty forest on a fresh generator,
    and rendering it gives the empty document without activating
    [_render_node_html]. *)
Theorem empty_edge_list_builds_nothing :
  build [] = Ok TreeGenerator_init
  ∧ ∀ fuel calls,
      render_roots fm fuel TreeGenerator_init calls = (Some (Ok ""), calls).
Proof.
  split; [|done]. unfold build_from_connections. simpl.
  assert (set_iter ∅ = []) as ->; [|done].
  apply Permutation_nil_r. by rewrite set_iter_enum, elements_empty.
Qed.

(** X8. When every source of the edge list is also a target (each node
    lies below a cycle) the built forest has no root, and the rendered
    document is empty: the nodes are built and silently left out. *)
Theorem no_roots_when_every_source_is_a_target E :
  (∀ k, k ∈ E.*1 → k ∈ E.*2) →
  ∃ g, build (mk_conn <$> E) = Ok g
    ∧ length (heap g) = size (ids_of E)
    ∧ roots g = []
    ∧ ∀ fuel calls, render_roots fm fuel g calls = (Some (Ok ""), calls).
Proof.
  intros Hall. exists (built E). split; [by apply build_edges|].
  assert (Hroots : roots (built E) = []).
  { simpl. destruct (filter _ _) as [|k ks] eqn:Hf; [done|].
    assert (Hk : k ∈ filter (λ k, k ∉ E.*2) (order_of E))
      by (rewrite Hf; left).
    apply list_elem_of_filter in Hk as [Hk Hin]. exfalso. apply Hk.
    apply (elem_of_order set_iter set_iter_enum) in Hin as [?|?]; auto. }
  split_and!.
  - rewrite built_length. unfold order_of. by rewrite set_iter_enum.
  - done.
  - intros fuel calls. unfold render_roots. by rewrite Hroots.
Qed.

End ForestInvariants.

(** * More about rendering *)

Section RenderMore.

Context `{PyFloat}.
Variable fm : FlowModelGenerator.

Local Abbreviation render := (_render_node_html fm).





Lemma render_open_empty_snapshots node :
  telemetry_data fm !! id node = Some [] →
  render_open fm node = Raise IndexError.
Proof.
  intros Hs. unfold render_open, tooltip_items, telemetry_of. by rewrite Hs.
Qed.

End RenderMore.

(** * Closed examples of the further properties *)

Section MoreExamples.

Local Abbreviation build := (build_from_connections elements demo_flow).

Lemma build_reads_source_and_target_witness :
  Forall2 reads [labelled_conn] [("pump-001", "tank-001")]
  ∧ ∃ g', build TreeGenerator_init [labelled_conn] = Ok g'
      ∧ build TreeGenerator_init (mk_conn <$> [("pump-001", "tank-001")])
        = Ok g'.
Proof.
  assert (Hr : Forall2 reads [labelled_conn] [("pump-001", "tank-001")]).
  { repeat constructor. }
  split; [exact Hr|].
  exact (build_reads_source_and_target elements demo_flow TreeGenerator_init
           _ _ Hr).
Defined.

Lemma build_missing_key_witness :
  Forall2 reads [labelled_conn] [("pump-001", "tank-001")]
  ∧ missing_key no_target_conn = Some "target"
  ∧ build TreeGenerator_init ([labelled_conn] ++ no_target_conn :: [∅])
    = Raise (KeyError "target").
Proof.
  assert (Hr : Forall2 reads [labelled_conn] [("pump-001", "tank-001")]).
  { repeat constructor. }
  split; [exact Hr|]. split; [reflexivity|].
  exact (build_missing_key elements demo_flow TreeGenerator_init
           _ _ no_target_conn [∅] "target" Hr eq_refl).
Defined.

(** The generator left by a build from [twice], built upon again with
    [abcd]. *)
Lemma rebuild_keeps_old_nodes_witness :
  ∃ g, build TreeGenerator_init (mk_conn <$> twice) = Ok g
    ∧ ∃ g', build g (mk_conn <$> abcd) = Ok g'
        ∧ take (length (heap g)) (heap g') = heap g
        ∧ length (heap g') = length (heap g) + size (ids_of abcd)
        ∧ (∀ k, k ∈ ids_of abcd →
             ∃ l, node_of g' l k ∧ length (heap g) ≤ l < length (heap g'))
        ∧ (∀ k l, k ∉ ids_of abcd → dict_get (nodes g) k = Some l →
             dict_get (nodes g') k = Some l ∧ l ∈ roots g').
Proof.
  exists twice_forest. split; [vm_compute; reflexivity|].
  apply (rebuild_keeps_old_nodes elements elements_enum demo_flow).
Defined.

Lemma one_node_per_identifier_witness :
  ∃ g, build TreeGenerator_init (mk_conn <$> abcd) = Ok g
    ∧ NoDup (nodes g).*1
    ∧ (∀ k, k ∈ (nodes g).*1 ↔ k ∈ abcd.*1 ∨ k ∈ abcd.*2)
    ∧ length (heap g) = size (ids_of abcd)
    ∧ length (nodes g) = size (ids_of abcd)
    ∧ ∀ l n, heap g !! l = Some n → dict_get (nodes g) (id n) = Some l.
Proof.
  exact (one_node_per_identifier elements elements_enum demo_flow abcd).
Defined.

Lemma roots_are_the_parentless_nodes_witness :
  ∃ g, build TreeGenerator_init (mk_conn <$> abcd) = Ok g
    ∧ ∀ l n, heap g !! l = Some n → (l ∈ roots g ↔ parent n = None).
Proof.
  exact (roots_are_the_parentless_nodes elements elements_enum demo_flow abcd).
Defined.

Lemma references_are_valid_and_consistent_witness :
  ∃ g, build TreeGenerator_init (mk_conn <$> looping) = Ok g
    ∧ (∀ k l, dict_get (nodes g) k = Some l → l < length (heap g))
    ∧ (∀ r, r ∈ roots g → r < length (heap g))
    ∧ (∀ l n c, heap g !! l = Some n → c ∈ children n →
         ∃ nc, heap g !! c = Some nc ∧ is_Some (parent nc))
    ∧ (∀ l n p, heap g !! l = Some n → parent n = Some p →
         ∃ np, heap g !! p = Some np ∧ l ∈ children np).
Proof.
  exact (references_are_valid_and_consistent elements elements_enum demo_flow
           looping).
Defined.

Lemma empty_edge_list_builds_nothing_witness :
  build TreeGenerator_init [] = Ok TreeGenerator_init
  ∧ ∀ fuel calls,
      render_roots demo_flow fuel TreeGenerator_init calls
      = (Some (Ok ""), calls).
Proof.
  exact (empty_edge_list_builds_nothing elements elements_enum demo_flow).
Defined.

Lemma no_roots_when_every_source_is_a_target_witness :
  (∀ k, k ∈ two_cycle.*1 → k ∈ two_cycle.*2)
  ∧ ∃ g, build TreeGenerator_init (mk_conn <$> two_cycle) = Ok g
      ∧ length (heap g) = size (ids_of two_cycle)
      ∧ roots g = []
      ∧ ∀ fuel calls, render_roots demo_flow fuel g calls = (Some (Ok ""), calls).
Proof.
  assert (Hall : ∀ k, k ∈ two_cycle.*1 → k ∈ two_cycle.*2).
  { intros k Hk. simpl in *. set_solver. }
  split; [exact Hall|].
  exact (no_roots_when_every_source_is_a_target elements elements_enum
           demo_flow two_cycle Hall).
Defined.


End MoreExamples.
